(** * Animal Home API: query filters, response projection and request validation

    A shallow embedding of [main.py] and [schemas.py].  Documents and filters
    are Python dictionaries and are modelled as finite maps with string keys;
    handlers that touch the store thread its state explicitly, and a handler
    an exception may leave returns an outcome.  The document store, its
    regular-expression engine, the insertion helper of the [database]
    module and the conversions of the validation library are collaborators
    of the handlers and enter as type classes; an instance of each is given
    for evaluation. *)

From Stdlib Require Import ZArith String Ascii List Bool Btauto.
From Stdlib Require Import Floats.SpecFloat.
From stdpp Require Import base decidable option list strings gmap fin_maps pretty.

Local Open Scope string_scope.
Set Warnings "-register-all".

(** ** Documents *)

(** The values held by the fields of animal and story documents: [None],
    booleans, integers, text, the store's object identifiers (written as
    their hexadecimal text) and lists of text ([photos]). *)
Inductive value :=
  | VNull
  | VBool (b : bool)
  | VInt (n : Z)
  | VStr (s : string)
  | VOid (hex : string)
  | VStrs (l : list string).

#[global] Instance value_eq_dec : EqDecision value.
Proof. solve_decision. Defined.

Abbreviation document := (gmap string value).

(** ** Python's [str] on document values *)

Definition char_dquote : ascii := ascii_of_nat 34.
Definition char_squote : ascii := ascii_of_nat 39.
Definition char_backslash : ascii := ascii_of_nat 92.
Definition char_newline : ascii := ascii_of_nat 10.

Fixpoint mentions (c : ascii) (s : string) : bool :=
  match s with
  | EmptyString => false
  | String x s' => Ascii.eqb x c || mentions c s'
  end.

Definition hex_digit (n : N) : ascii :=
  ascii_of_N (if (n <? 10)%N then 48 + n else 87 + n)%N.

(** The characters of a text are code points below 256.  Those [repr]
    does not print as they are: the control characters, and above 127 the
    codes 128 to 160 and the soft hyphen 173. *)
Definition unprintable (n : N) : bool :=
  ((n <? 32) || (n =? 127) || ((128 <=? n) && (n <=? 160)) || (n =? 173))%N.

(** One character of [repr] of a text, inside the quote character [quote]. *)
Definition repr_char (quote c : ascii) : string :=
  let n := N_of_ascii c in
  if Ascii.eqb c char_backslash then String char_backslash (String char_backslash EmptyString)
  else if Ascii.eqb c quote then String char_backslash (String quote EmptyString)
  else if (n =? 10)%N then String char_backslash "n"
  else if (n =? 13)%N then String char_backslash "r"
  else if (n =? 9)%N then String char_backslash "t"
  else if unprintable n
       then String char_backslash
              (String "x" (String (hex_digit (n / 16)) (String (hex_digit (n mod 16)) EmptyString)))
  else String c EmptyString.

Fixpoint repr_chars (quote : ascii) (s : string) : string :=
  match s with
  | EmptyString => EmptyString
  | String c s' => repr_char quote c ++ repr_chars quote s'
  end.

(** [repr] of a text: single quotes, unless the text holds a single quote
    and no double quote. *)
Definition py_repr_str (s : string) : string :=
  let quote := if mentions char_squote s && negb (mentions char_dquote s)
               then char_dquote else char_squote in
  String quote (repr_chars quote s ++ String quote EmptyString).

Fixpoint join_comma (l : list string) : string :=
  match l with
  | [] => EmptyString
  | [x] => x
  | x :: l' => x ++ ", " ++ join_comma l'
  end.

(** [str(x)] where [x] is the result of [dict.get]: a missing key gives
    [None]. *)
Definition py_str (x : option value) : string :=
  match x with
  | None | Some VNull => "None"
  | Some (VBool true) => "True"
  | Some (VBool false) => "False"
  | Some (VInt n) => pretty n
  | Some (VStr s) => s
  | Some (VOid hex) => hex
  | Some (VStrs l) => "[" ++ join_comma (map py_repr_str l) ++ "]"
  end.

(** ** Response projector: [to_public] *)

(** [to_public(doc)]: a falsy argument ([None] or the empty dictionary) is
    returned as it is; otherwise the key [id] is set to [str(doc.get(_id))]
    and the key [_id] is popped. *)
Definition to_public (doc : option document) : option document :=
  match doc with
  | None => None
  | Some d =>
      if decide (d = ∅) then Some d
      else Some (delete "_id" (<["id" := VStr (py_str (d !! "_id"))]> d))
  end.

(** ** Store filters *)

(** The store evaluates [$regex] with its own engine.  [regex_compiles
    options pattern] tells whether the engine accepts the pattern: a query
    holding a pattern it does not accept is refused by the store.
    [regex_search options pattern subject] is the engine's verdict on an
    unanchored search with an accepted pattern. *)
Class RegexEngine := {
  regex_compiles : string → string → bool;
  regex_search : string → string → string → bool
}.

(** The condition a filter puts on one field: a plain value (equality), the
    operator document [{$regex: pattern, $options: options}], or a document
    of comparison operators such as [{$gte: a, $lte: b}]. *)
Inductive field_cond :=
  | CEq (v : value)
  | CRegex (pattern options : string)
  | CRange (ops : gmap string Z).

(** A top-level entry of a filter: a condition on the field named by the
    key, or the list of alternatives stored under [$or]. *)
Inductive clause :=
  | CField (c : field_cond)
  | COr (alts : list (gmap string field_cond)).

Abbreviation filter_doc := (gmap string clause).

(** Equality as the store matches it: a field equals the value, or is a
    list holding it; a query for null also matches a missing field. *)
Definition store_eq (fv : option value) (v : value) : bool :=
  match fv with
  | None => bool_decide (v = VNull)
  | Some (VStrs l) =>
      match v with
      | VStr s => bool_decide (s ∈ l)
      | _ => bool_decide (VStrs l = v)
      end
  | Some x => bool_decide (x = v)
  end.

(** One comparison operator against an integer field. *)
Definition range_op (op : string) (bound n : Z) : bool :=
  if decide (op = "$gte") then (bound <=? n)%Z
  else if decide (op = "$lte") then (n <=? bound)%Z
  else false.

(** The texts a field offers to a regular expression: the field itself, or
    the elements of a list. *)
Definition field_texts (fv : option value) : list string :=
  match fv with
  | Some (VStr s) => [s]
  | Some (VStrs l) => l
  | _ => []
  end.

Definition field_holds `{RegexEngine} (fv : option value) (c : field_cond) : bool :=
  match c with
  | CEq v => store_eq fv v
  | CRegex pattern options => existsb (regex_search options pattern) (field_texts fv)
  | CRange ops =>
      match fv with
      | Some (VInt n) => bool_decide (map_Forall (λ op bound, range_op op bound n = true) ops)
      | _ => false
      end
  end.

(** A dictionary of field conditions holds when each of its entries does. *)
Definition fields_hold `{RegexEngine} (f : gmap string field_cond) (d : document) : bool :=
  bool_decide (map_Forall (λ k c, field_holds (d !! k) c = true) f).

Definition clause_holds `{RegexEngine} (k : string) (c : clause) (d : document) : bool :=
  match c with
  | CField fc => field_holds (d !! k) fc
  | COr alts => existsb (λ f, fields_hold f d) alts
  end.

(** [matches filt d]: the document [d] is selected by [find(filt)]. *)
Definition matches `{RegexEngine} (filt : filter_doc) (d : document) : bool :=
  bool_decide (map_Forall (λ k c, clause_holds k c d = true) filt).

(** ** The filter built by [list_animals] *)

(** Truth value of an optional text in a Python condition ([if q:]): [None]
    and the empty text are false. *)
Definition truthy (o : option string) : option string :=
  match o with
  | Some EmptyString => None
  | _ => o
  end.

Definition list_animals_filter
    (q species : option string) (age_min age_max : option Z)
    (size : option string) (featured : option bool) : filter_doc :=
  let filt : filter_doc := ∅ in
  let filt :=
    match truthy q with
    | Some q =>
        <["$or" := COr [ {["name" := CRegex q "i"]};
                         {["breed" := CRegex q "i"]};
                         {["description" := CRegex q "i"]} ]]> filt
    | None => filt
    end in
  let filt :=
    match truthy species with
    | Some species => <["species" := CField (CEq (VStr species))]> filt
    | None => filt
    end in
  let filt :=
    match truthy size with
    | Some size => <["size" := CField (CEq (VStr size))]> filt
    | None => filt
    end in
  let filt :=
    match featured with
    | Some featured => <["featured" := CField (CEq (VBool featured))]> filt
    | None => filt
    end in
  let age_query : gmap string Z := ∅ in
  let age_query :=
    match age_min with
    | Some age_min => <["$gte" := age_min]> age_query
    | None => age_query
    end in
  let age_query :=
    match age_max with
    | Some age_max => <["$lte" := age_max]> age_query
    | None => age_query
    end in
  if decide (age_query = ∅) then filt
  else <["age" := CField (CRange age_query)]> filt.

(** ** The store as the read handlers see it *)

(** The module-level handle [db]: [None] when the store is not configured,
    otherwise the collections by name, each in the store's natural order. *)
Abbreviation database := (gmap string (list document)).

Definition collection (db : database) (name : string) : list document :=
  default [] (db !! name).

(** [find(filt)]: the documents of a collection selected by a filter. *)
Definition find `{RegexEngine} (coll : list document) (filt : filter_doc) : list document :=
  List.filter (matches filt) coll.

(** [cursor.limit(n)] as the store applies it: zero means no limit, and a
    negative number caps the result at its absolute value. *)
Definition cursor_limit (limit : Z) (docs : list document) : list document :=
  if (limit =? 0)%Z then docs else take (Z.abs_nat limit) docs.

(** ** Queries that raise *)

(** The integers the driver can encode: eight bytes, signed.  Encoding any
    other integer raises [OverflowError]. *)
Definition int64 (n : Z) : bool := (- 2 ^ 63 <=? n)%Z && (n <? 2 ^ 63)%Z.

Definition cond_encodable (c : field_cond) : bool :=
  match c with
  | CEq (VInt n) => int64 n
  | CEq _ => true
  | CRegex _ _ => true
  | CRange ops => bool_decide (map_Forall (λ _ bound, int64 bound = true) ops)
  end.

Definition cond_compiles `{RegexEngine} (c : field_cond) : bool :=
  match c with
  | CRegex pattern options => regex_compiles options pattern
  | _ => true
  end.

(** A property of every field condition of a clause, and of a filter. *)
Definition clause_all (P : field_cond → bool) (c : clause) : bool :=
  match c with
  | CField fc => P fc
  | COr alts => forallb (λ f, bool_decide (map_Forall (λ _ fc, P fc = true) f)) alts
  end.

Definition filter_all (P : field_cond → bool) (filt : filter_doc) : bool :=
  bool_decide (map_Forall (λ _ c, clause_all P c = true) filt).

(** The exception with which reading the cursor of [find(filt)] ends, if
    any: the driver cannot encode the filter, or the store refuses one of
    its patterns.  The driver encodes before it sends. *)
Definition query_error `{RegexEngine} (filt : filter_doc) : option string :=
  if negb (filter_all cond_encodable filt) then Some "OverflowError"
  else if negb (filter_all cond_compiles filt) then Some "OperationFailure"
  else None.

(** How a call of a handler ends: it returns, or an exception leaves it. *)
Inductive outcome (A : Type) :=
  | Returned (result : A)
  | Thrown (exception : string).
Arguments Returned {A} result.
Arguments Thrown {A} exception.

(** ** Read handlers *)

(** [list_animals]: the empty list without a store; otherwise the cursor of
    [find(filt).limit(limit)] is read in the list comprehension, where the
    exception of a query the store does not run leaves the handler. *)
Definition list_animals `{RegexEngine} (db : option database)
    (q species : option string) (age_min age_max : option Z)
    (size : option string) (featured : option bool) (limit : Z)
    : outcome (list (option document)) :=
  match db with
  | None => Returned []
  | Some db =>
      let filt := list_animals_filter q species age_min age_max size featured in
      match query_error filt with
      | Some exception => Thrown exception
      | None =>
          let docs := cursor_limit limit (find (collection db "animal") filt) in
          Returned (map (λ d, to_public (Some d)) docs)
      end
  end.

Definition featured_animals `{RegexEngine} (db : option database) : list (option document) :=
  match db with
  | None => []
  | Some db =>
      let docs :=
        cursor_limit 8 (find (collection db "animal")
                             {["featured" := CField (CEq (VBool true))]}) in
      map (λ d, to_public (Some d)) docs
  end.

Definition get_stories `{RegexEngine} (db : option database) (limit : Z)
    : list (option document) :=
  match db with
  | None => []
  | Some db =>
      let docs := cursor_limit limit (find (collection db "story") ∅) in
      map (λ d, to_public (Some d)) docs
  end.

(** ** Outcomes of a request *)

(** One violated constraint: the parameter or field, and the rule. *)
Inductive violation := Violation (loc rule : string).

(** The outcome of a route: the handler's return value, the framework's
    validation error (status 422) with its list of violations, or a server
    error (status 500) with its detail text. *)
Inductive response (A : Type) :=
  | Ok (body : A)
  | ValidationError (errors : list violation)
  | ServerError (detail : string).
Arguments Ok {A} body.
Arguments ValidationError {A} errors.
Arguments ServerError {A} detail.

Definition is_ok {A} (r : response A) : bool :=
  match r with Ok _ => true | _ => false end.

Definition is_validation_error {A} (r : response A) : bool :=
  match r with ValidationError _ => true | _ => false end.

Definition is_server_error {A} (r : response A) : bool :=
  match r with ServerError _ => true | _ => false end.

(** ** Query parameters of the read routes *)

(** The query string of [GET /animals] after the framework has read each
    value at its declared type; [None] is a parameter that was not sent. *)
Record animals_request := {
  r_q : option string;
  r_species : option string;
  r_age_min : option Z;
  r_age_max : option Z;
  r_size : option string;
  r_featured : option bool;
  r_limit : option Z
}.

(** The request without any parameter. *)
Definition no_parameters : animals_request :=
  {| r_q := None; r_species := None; r_age_min := None; r_age_max := None;
     r_size := None; r_featured := None; r_limit := None |}.

(** The same request with another value of [limit]. *)
Definition with_limit (r : animals_request) (limit : option Z) : animals_request :=
  {| r_q := r_q r; r_species := r_species r;
     r_age_min := r_age_min r; r_age_max := r_age_max r;
     r_size := r_size r; r_featured := r_featured r; r_limit := limit |}.

(** The bound [ge] of a [Query] declaration. *)
Definition check_ge (loc : string) (bound : Z) (x : option Z) : list violation :=
  match x with
  | Some n => if (n <? bound)%Z then [Violation loc "greater_than_equal"] else []
  | None => []
  end.

(** The bound [le] of a [Query] declaration. *)
Definition check_le (loc : string) (bound : Z) (x : option Z) : list violation :=
  match x with
  | Some n => if (bound <? n)%Z then [Violation loc "less_than_equal"] else []
  | None => []
  end.

(** The violations of the declarations of [list_animals]:
    [age_min], [age_max]: [Query(None, ge=0)]; [limit]: [Query(24, ge=1, le=100)]. *)
Definition animals_request_errors (r : animals_request) : list violation :=
  check_ge "age_min" 0 (r_age_min r) ++
  check_ge "age_max" 0 (r_age_max r) ++
  check_ge "limit" 1 (r_limit r) ++
  check_le "limit" 100 (r_limit r).

(** The body of the answer to an exception no handler catches. *)
Definition internal_error : string := "Internal Server Error".

(** [GET /animals]: the parameters are validated, then [list_animals] runs
    with the default 24 for a missing [limit]; an exception that leaves the
    handler is answered with status 500. *)
Definition route_animals `{RegexEngine} (db : option database) (r : animals_request)
    : response (list (option document)) :=
  match animals_request_errors r with
  | [] =>
      match list_animals db (r_q r) (r_species r) (r_age_min r) (r_age_max r)
              (r_size r) (r_featured r) (default 24%Z (r_limit r)) with
      | Returned rows => Ok rows
      | Thrown _ => ServerError internal_error
      end
  | errors => ValidationError errors
  end.

(** [GET /animals/featured]: the handler declares no parameter, and the
    framework ignores whatever the query string holds. *)
Definition route_featured `{RegexEngine} (db : option database) (r : animals_request)
    : response (list (option document)) :=
  Ok (featured_animals db).

(** [GET /stories]: [limit: int = 6] declares a default and no bound. *)
Definition route_stories `{RegexEngine} (db : option database) (limit : option Z)
    : response (list (option document)) :=
  Ok (get_stories db (default 6%Z limit)).

(** ** Request bodies and their validation ([schemas.py]) *)

(** A decoded JSON body.  Numbers are integers or binary64 floats, as the
    decoder produces them: a float may be an infinity or a NaN, which the
    decoder makes of a literal beyond the range, such as [-1e400], and of
    the tokens [Infinity] and [NaN]. *)
Inductive json :=
  | JNull
  | JBool (b : bool)
  | JInt (n : Z)
  | JFloat (f : spec_float)
  | JStr (s : string)
  | JArr (items : list json)
  | JObj (fields : gmap string json).

(** A float that is neither an infinity nor a NaN. *)
Definition finite (f : spec_float) : bool :=
  match f with
  | S754_zero _ | S754_finite _ _ _ => true
  | S754_infinity _ | S754_nan => false
  end.

(** The value holds, at any depth, a float that is not finite. *)
Fixpoint has_nonfinite (j : json) : bool :=
  match j with
  | JFloat f => negb (finite f)
  | JArr items => existsb has_nonfinite items
  | JObj fields => map_fold (λ _ v found, has_nonfinite v || found) false fields
  | _ => false
  end.

(** The result of validating a body against a model: the record, or every
    violation found (not only the first). *)
Inductive validation (A : Type) :=
  | Valid (x : A)
  | Invalid (errors : list violation).
Arguments Valid {A} x.
Arguments Invalid {A} errors.

Definition vap {A B} (f : validation (A → B)) (x : validation A) : validation B :=
  match f, x with
  | Valid g, Valid a => Valid (g a)
  | Valid _, Invalid e => Invalid e
  | Invalid e, Valid _ => Invalid e
  | Invalid e1, Invalid e2 => Invalid (e1 ++ e2)
  end.

Notation "f <&> x" := (vap f x) (at level 61, left associativity).

(** The violations a validation result carries. *)
Definition errors_of {A} (v : validation A) : list violation :=
  match v with
  | Valid _ => []
  | Invalid errors => errors
  end.

(** A result that, when it fails, names at least one violation. *)
Definition sound {A} (v : validation A) : Prop :=
  match v with
  | Invalid [] => False
  | _ => True
  end.

(** *** Conversions of the validation library

    The framework validates a body in the library's lax mode.  A value of
    the declared JSON type is taken as it is, and an integer is read as a
    float.  What the library makes of a value of another type for a field
    declared [int], [float] or [bool] (the text of a number, a float
    without fraction, a boolean, ...) is the library's own business, and so
    is its reading of a text as an email address; both enter as parameters.
    A conversion gives the converted value or the rule it reports as
    violated; [email_address] gives the address as the library normalises
    it, or nothing. *)
Class Conversions := {
  lax_int : json → Z + string;
  lax_float : json → spec_float + string;
  lax_bool : json → bool + string;
  email_address : string → option string
}.

(** *** Field readers

    Each reader checks one declared field of a model. *)

Definition missing {A} (k : string) : validation A := Invalid [Violation k "missing"].
Definition wrong {A} (k rule : string) : validation A := Invalid [Violation k rule].

Definition converted {A} (k : string) (x : A + string) : validation A :=
  match x with
  | inl a => Valid a
  | inr rule => wrong k rule
  end.

(** Binary64 operations of the standard library's float specification. *)
Definition float_of_Z (n : Z) : spec_float := binary_normalize 53 1024 n 0 false.
Definition float_zero : spec_float := S754_zero false.
Definition float_lt (x y : spec_float) : bool := SFltb x y.
Definition float_le (x y : spec_float) : bool := SFleb x y.

(** A value for a field declared [int]. *)
Definition as_int `{Conversions} (k : string) (v : json) : validation Z :=
  match v with
  | JInt n => Valid n
  | _ => converted k (lax_int v)
  end.

(** A value for a field declared [float]: an integer is read as the
    nearest float, and is refused when it lies beyond the floats. *)
Definition as_float `{Conversions} (k : string) (v : json) : validation spec_float :=
  match v with
  | JFloat f => Valid f
  | JInt n => if finite (float_of_Z n) then Valid (float_of_Z n) else wrong k "float_type"
  | _ => converted k (lax_float v)
  end.

(** A value for a field declared [bool]. *)
Definition as_bool `{Conversions} (k : string) (v : json) : validation bool :=
  match v with
  | JBool b => Valid b
  | _ => converted k (lax_bool v)
  end.

(** [k: str] *)
Definition req_str (fields : gmap string json) (k : string) : validation string :=
  match fields !! k with
  | None => missing k
  | Some (JStr s) => Valid s
  | Some _ => wrong k "string_type"
  end.

(** [k: Optional[str] = None] *)
Definition opt_str (fields : gmap string json) (k : string) : validation (option string) :=
  match fields !! k with
  | None | Some JNull => Valid None
  | Some (JStr s) => Valid (Some s)
  | Some _ => wrong k "string_type"
  end.

(** [k: Literal[...]] *)
Definition req_literal (allowed : list string) (fields : gmap string json) (k : string)
    : validation string :=
  match fields !! k with
  | None => missing k
  | Some (JStr s) => if bool_decide (s ∈ allowed) then Valid s else wrong k "literal_error"
  | Some _ => wrong k "literal_error"
  end.

(** [k: Optional[Literal[...]] = None] *)
Definition opt_literal (allowed : list string) (fields : gmap string json) (k : string)
    : validation (option string) :=
  match fields !! k with
  | None | Some JNull => Valid None
  | Some (JStr s) => if bool_decide (s ∈ allowed) then Valid (Some s) else wrong k "literal_error"
  | Some _ => wrong k "literal_error"
  end.

(** The bounds [ge] and [le] of a field, on the integer it was read as. *)
Definition between (lo hi : Z) (k : string) (n : Z) : validation Z :=
  if (n <? lo)%Z then wrong k "greater_than_equal"
  else if (hi <? n)%Z then wrong k "less_than_equal"
  else Valid n.

(** One validation after another. *)
Definition and_then {A B} (v : validation A) (f : A → validation B) : validation B :=
  match v with
  | Valid a => f a
  | Invalid errors => Invalid errors
  end.

(** [k: int = Field(..., ge=lo, le=hi)] *)
Definition req_int_between `{Conversions} (lo hi : Z) (fields : gmap string json) (k : string)
    : validation Z :=
  match fields !! k with
  | None => missing k
  | Some v => and_then (as_int k v) (between lo hi k)
  end.

(** [k: bool = Field(default=dflt)] *)
Definition bool_default `{Conversions} (dflt : bool) (fields : gmap string json) (k : string)
    : validation bool :=
  match fields !! k with
  | None => Valid dflt
  | Some v => as_bool k v
  end.

(** [k: Optional[bool] = None] *)
Definition opt_bool `{Conversions} (fields : gmap string json) (k : string)
    : validation (option bool) :=
  match fields !! k with
  | None | Some JNull => Valid None
  | Some v => and_then (as_bool k v) (λ b, Valid (Some b))
  end.

Fixpoint all_strings (items : list json) : option (list string) :=
  match items with
  | [] => Some []
  | JStr s :: items' => option_map (cons s) (all_strings items')
  | _ :: _ => None
  end.

(** [k: List[str] = Field(default_factory=list)] *)
Definition str_list_default (fields : gmap string json) (k : string)
    : validation (list string) :=
  match fields !! k with
  | None => Valid []
  | Some (JArr items) =>
      match all_strings items with
      | Some l => Valid l
      | None => wrong k "string_type"
      end
  | Some _ => wrong k "list_type"
  end.

(** *** Email addresses *)

(** [k: EmailStr]: the text is handed to the library, and the model keeps
    the address the library returns. *)
Definition as_email `{Conversions} (k : string) (v : json) : validation string :=
  match v with
  | JStr s =>
      match email_address s with
      | Some address => Valid address
      | None => wrong k "value_error"
      end
  | _ => wrong k "string_type"
  end.

Definition req_email `{Conversions} (fields : gmap string json) (k : string)
    : validation string :=
  match fields !! k with
  | None => missing k
  | Some v => as_email k v
  end.

(** [k: Optional[EmailStr] = None] *)
Definition opt_email `{Conversions} (fields : gmap string json) (k : string)
    : validation (option string) :=
  match fields !! k with
  | None | Some JNull => Valid None
  | Some v => and_then (as_email k v) (λ address, Valid (Some address))
  end.

(** *** Floats *)

(** The bound [gt=0]: the comparison is Python's [value > 0], which is
    false for zero of either sign, for a negative number, for the negative
    infinity and for a NaN, and true for the positive infinity. *)
Definition greater_than_zero (k : string) (f : spec_float) : validation spec_float :=
  if float_lt float_zero f then Valid f else wrong k "greater_than".

(** [k: float = Field(..., gt=0)] *)
Definition req_float_gt0 `{Conversions} (fields : gmap string json) (k : string)
    : validation spec_float :=
  match fields !! k with
  | None => missing k
  | Some v => and_then (as_float k v) (greater_than_zero k)
  end.

(** *** The models *)

Definition species_values : list string := ["dog"; "cat"; "rabbit"; "bird"; "other"].
Definition size_values : list string := ["small"; "medium"; "large"; "xlarge"].
Definition gender_values : list string := ["male"; "female"].

Module Animal.
Record t := Build {
  name : string;
  species : string;
  breed : option string;
  age : Z;
  size : string;
  gender : option string;
  description : option string;
  photos : list string;
  featured : bool;
  location : option string;
  good_with_kids : option bool;
  good_with_pets : option bool
}.
End Animal.

Module Application.
Record t := Build {
  animal_id : string;
  full_name : string;
  email : string;
  phone : option string;
  message : option string
}.
End Application.

Module Volunteer.
Record t := Build {
  full_name : string;
  email : string;
  interests : list string;
  availability : option string;
  message : option string
}.
End Volunteer.

Module Donation.
Record t := Build {
  full_name : string;
  email : option string;
  amount : spec_float;
  message : option string
}.
End Donation.

(** A body that is not a JSON object fails as a whole. *)
Definition with_fields {A} (body : json) (k : gmap string json → validation A)
    : validation A :=
  match body with
  | JObj fields => k fields
  | JNull => Invalid [Violation "body" "missing"]
  | _ => Invalid [Violation "body" "model_attributes_type"]
  end.

Definition validate_animal `{Conversions} (body : json) : validation Animal.t :=
  with_fields body (λ fields,
    Valid Animal.Build
      <&> req_str fields "name"
      <&> req_literal species_values fields "species"
      <&> opt_str fields "breed"
      <&> req_int_between 0 40 fields "age"
      <&> req_literal size_values fields "size"
      <&> opt_literal gender_values fields "gender"
      <&> opt_str fields "description"
      <&> str_list_default fields "photos"
      <&> bool_default false fields "featured"
      <&> opt_str fields "location"
      <&> opt_bool fields "good_with_kids"
      <&> opt_bool fields "good_with_pets").

Definition validate_application `{Conversions} (body : json) : validation Application.t :=
  with_fields body (λ fields,
    Valid Application.Build
      <&> req_str fields "animal_id"
      <&> req_str fields "full_name"
      <&> req_email fields "email"
      <&> opt_str fields "phone"
      <&> opt_str fields "message").

Definition validate_volunteer `{Conversions} (body : json) : validation Volunteer.t :=
  with_fields body (λ fields,
    Valid Volunteer.Build
      <&> req_str fields "full_name"
      <&> req_email fields "email"
      <&> str_list_default fields "interests"
      <&> opt_str fields "availability"
      <&> opt_str fields "message").

Definition validate_donation `{Conversions} (body : json) : validation Donation.t :=
  with_fields body (λ fields,
    Valid Donation.Build
      <&> req_str fields "full_name"
      <&> opt_email fields "email"
      <&> req_float_gt0 fields "amount"
      <&> opt_str fields "message").

(** *** A validated animal as a document *)

Definition of_opt {A} (f : A → value) (x : option A) : value :=
  match x with Some a => f a | None => VNull end.

(** The dictionary of a validated [Animal]: one key per declared field,
    with [None] for an optional field that was not given. *)
Definition animal_document (a : Animal.t) : document :=
  <["name" := VStr (Animal.name a)]>
  (<["species" := VStr (Animal.species a)]>
  (<["breed" := of_opt VStr (Animal.breed a)]>
  (<["age" := VInt (Animal.age a)]>
  (<["size" := VStr (Animal.size a)]>
  (<["gender" := of_opt VStr (Animal.gender a)]>
  (<["description" := of_opt VStr (Animal.description a)]>
  (<["photos" := VStrs (Animal.photos a)]>
  (<["featured" := VBool (Animal.featured a)]>
  (<["location" := of_opt VStr (Animal.location a)]>
  (<["good_with_kids" := of_opt VBool (Animal.good_with_kids a)]>
  (<["good_with_pets" := of_opt VBool (Animal.good_with_pets a)]> ∅))))))))))).

(** The document as the store holds it: the identity it assigned is kept
    under [_id]. *)
Definition stored_animal (oid : string) (a : Animal.t) : document :=
  <["_id" := VOid oid]> (animal_document a).

(** *** The library without conversions *)

(** The conversions of the library's strict mode, which converts nothing:
    a value of another JSON type is refused with the type rule of the
    field.  For addresses this instance is a stand-in: it refuses a text
    without an at-sign, as every address grammar does, and returns any
    other text as it is.  The statements below are proved for every
    instance of [Conversions]; this one serves to evaluate the examples,
    whose fields hold values of their declared types. *)
Definition strict_conversions : Conversions := {|
  lax_int v := inr "int_type";
  lax_float v := inr "float_type";
  lax_bool v := inr "bool_type";
  email_address s := if mentions "@"%char s then Some s else None
|}.

(** *** Example bodies *)

Definition float_25_5 : spec_float :=
  Eval vm_compute in binary_normalize 53 1024 51 (-1) false.

Definition donation_25_5 : json :=
  JObj (<["full_name" := JStr "Ann Lee"]> (<["amount" := JFloat float_25_5]> ∅)).

(** The donation whose amount was sent as [-1e400], which the decoder
    reads as the negative infinity. *)
Definition donation_minus_1e400 : json :=
  JObj (<["full_name" := JStr "Ann Lee"]> (<["amount" := JFloat (S754_infinity true)]> ∅)).

(** The donation of 25.5 with, as its message, the number [1e400], which
    the decoder reads as the positive infinity. *)
Definition donation_message_1e400 : json :=
  JObj (<["full_name" := JStr "Ann Lee"]>
       (<["amount" := JFloat float_25_5]>
       (<["message" := JFloat (S754_infinity false)]> ∅))).

Definition application_not_an_email : json :=
  JObj (<["animal_id" := JStr "0000000000000000000000a1"]>
       (<["full_name" := JStr "Ann Lee"]>
       (<["email" := JStr "not-an-email"]> ∅))).

Definition luna_body : json :=
  JObj (<["name" := JStr "Luna"]>
       (<["species" := JStr "dog"]>
       (<["breed" := JStr "Labrador Mix"]>
       (<["age" := JInt 3]>
       (<["size" := JStr "large"]>
       (<["gender" := JStr "female"]>
       (<["featured" := JBool true]> ∅))))))).

Definition luna_record : Animal.t :=
  Animal.Build "Luna" "dog" (Some "Labrador Mix") 3 "large" (Some "female")
    None [] true None None None.

(** ** Write handlers *)

(** What the handlers hand to [create_document]: a validated model. *)
Inductive payload :=
  | PApplication (a : Application.t)
  | PVolunteer (v : Volunteer.t)
  | PDonation (d : Donation.t).

(** The two ways a call of [create_document] ends: it returns the text of
    the new identity, or raises an exception with a cause. *)
Inductive insert_result :=
  | Inserted (id : string)
  | Raised (cause : string).

(** The helper [create_document(collection, data)] of the [database] module,
    over the store state [St] it changes. *)
Class Store (St : Type) := create_document : string → payload → St → insert_result * St.

Module Ack.
Record t := Build { id : string; status : string }.
End Ack.

Definition submit_application `{Store St} (payload : Application.t) (st : St)
    : response Ack.t * St :=
  match create_document "application" (PApplication payload) st with
  | (Inserted app_id, st') => (Ok (Ack.Build app_id "received"), st')
  | (Raised e, st') => (ServerError e, st')
  end.

Definition submit_volunteer `{Store St} (payload : Volunteer.t) (st : St)
    : response Ack.t * St :=
  match create_document "volunteer" (PVolunteer payload) st with
  | (Inserted vid, st') => (Ok (Ack.Build vid "received"), st')
  | (Raised e, st') => (ServerError e, st')
  end.

Definition submit_donation `{Store St} (payload : Donation.t) (st : St)
    : response Ack.t * St :=
  match create_document "donation" (PDonation payload) st with
  | (Inserted did, st') => (Ok (Ack.Build did "pledged"), st')
  | (Raised e, st') => (ServerError e, st')
  end.

(** The value the framework reports with a violation: the whole body for
    a field that is missing and for a body that is not an object, and
    otherwise what the body holds under the field. *)
Definition violation_input (body : json) (v : violation) : json :=
  match body, v with
  | JObj fields, Violation loc rule =>
      if String.eqb rule "missing" then body else default JNull (fields !! loc)
  | _, _ => body
  end.

(** The violations cannot be written as JSON: a reported value holds a
    float that is not finite. *)
Definition unserialisable (body : json) (errors : list violation) : bool :=
  existsb (λ v, has_nonfinite (violation_input body v)) errors.

(** The answer to a body that fails validation: status 422 with the
    violations and the values they report; when these cannot be written as
    JSON, the exception of the encoder leaves the framework's own error
    handler, and the answer is status 500. *)
Definition validation_failure {A} (body : json) (errors : list violation) : response A :=
  if unserialisable body errors then ServerError internal_error
  else ValidationError errors.

(** The routes: the framework validates the body against the model the
    handler declares and calls the handler only with a valid record. *)
Definition route_applications `{Conversions} `{Store St} (body : json) (st : St)
    : response Ack.t * St :=
  match validate_application body with
  | Valid payload => submit_application payload st
  | Invalid errors => (validation_failure body errors, st)
  end.

Definition route_volunteers `{Conversions} `{Store St} (body : json) (st : St)
    : response Ack.t * St :=
  match validate_volunteer body with
  | Valid payload => submit_volunteer payload st
  | Invalid errors => (validation_failure body errors, st)
  end.

Definition route_donations `{Conversions} `{Store St} (body : json) (st : St)
    : response Ack.t * St :=
  match validate_donation body with
  | Valid payload => submit_donation payload st
  | Invalid errors => (validation_failure body errors, st)
  end.

(** ** A reference regular-expression engine *)

(** Case folding of the option [i] on the letters A to Z. *)
Definition lower (c : ascii) : ascii :=
  let n := N_of_ascii c in
  if ((65 <=? n) && (n <=? 90))%N then ascii_of_N (n + 32) else c.

Fixpoint lower_str (s : string) : string :=
  match s with
  | EmptyString => EmptyString
  | String c s' => String (lower c) (lower_str s')
  end.

(** One pattern character against one subject character: a dot stands for
    any character but the newline, any other character for itself. *)
Definition atom_matches (caseless : bool) (p c : ascii) : bool :=
  if Ascii.eqb p "."%char then negb (Ascii.eqb c char_newline)
  else if caseless then Ascii.eqb (lower p) (lower c)
  else Ascii.eqb p c.

Fixpoint match_here (caseless : bool) (pattern subject : string) : bool :=
  match pattern with
  | EmptyString => true
  | String p pattern' =>
      match subject with
      | EmptyString => false
      | String c subject' =>
          atom_matches caseless p c && match_here caseless pattern' subject'
      end
  end.

(** Unanchored search: the pattern matches at some position. *)
Fixpoint search_from (caseless : bool) (pattern subject : string) : bool :=
  match_here caseless pattern subject ||
  match subject with
  | EmptyString => false
  | String _ subject' => search_from caseless pattern subject'
  end.

(** The metacharacters this engine does not interpret. *)
Definition other_meta : string := String char_backslash "^$[]|()?*+{}".

Fixpoint disjoint_from (set s : string) : bool :=
  match s with
  | EmptyString => true
  | String c s' => negb (mentions c set) && disjoint_from set s'
  end.

(** The patterns on which the reference engine is the store's engine: a dot
    is the only metacharacter, and there is no NUL. *)
Definition in_fragment (pattern : string) : bool :=
  disjoint_from (String zero other_meta) pattern.

(** The patterns without any metacharacter. *)
Definition plain (pattern : string) : bool :=
  in_fragment pattern && negb (mentions "."%char pattern).


(** An engine for the patterns of [in_fragment]: a sequence of ordinary
    characters and dots, searched anywhere in the subject, caseless on the
    letters A to Z when the options hold [i].  It stands for the store's
    engine on these patterns, where the statements below use it.  It
    accepts no other pattern, and no statement relies on that: what
    follows from a pattern the store refuses is proved for every engine. *)
Definition fragment_engine : RegexEngine := {|
  regex_compiles options pattern := in_fragment pattern;
  regex_search options pattern subject :=
    search_from (mentions "i"%char options) pattern subject
|}.

(** ** A reference store for the write handlers *)

Record mem_db := MemDb {
  inserted : list (string * string * payload);
  next_oid : N
}.

Fixpoint hex_text (digits : nat) (n : N) (acc : string) : string :=
  match digits with
  | O => acc
  | Datatypes.S k => hex_text k (n / 16)%N (String (hex_digit (n mod 16)%N) acc)
  end.

(** The text of an object identifier: 24 hexadecimal digits. *)
Definition oid_text (n : N) : string := hex_text 24 n EmptyString.

(** Modelled from the spec: the helper [create_document] of the [database]
    module, whose source is not part of the repository files at hand.  The
    adapter exposes insert(collection, document) -> id; the store assigns
    the identity once, at creation; a single insert either fully succeeds,
    yielding one identity, or fully fails; with the store unconfigured a
    write fails with the underlying cause.  The state is [None] for an
    unconfigured store, else the records inserted so far with their
    collection and identity. *)
Definition mem_create_document : Store (option mem_db) :=
  λ collection_name data st,
    match st with
    | None => (Raised "Database not available", None)
    | Some db =>
        let oid := oid_text (next_oid db) in
        (Inserted oid,
         Some (MemDb (inserted db ++ [(collection_name, oid, data)]) (N.succ (next_oid db))))
    end.

(** ** The constraints of the search parameters, one by one *)

(** The free-text constraint: one of [name], [breed], [description] is
    found by the store's caseless search for [q]. *)
Definition q_constraint `{RegexEngine} (q : string) (d : document) : bool :=
  existsb (regex_search "i" q) (field_texts (d !! "name")) ||
  existsb (regex_search "i" q) (field_texts (d !! "breed")) ||
  existsb (regex_search "i" q) (field_texts (d !! "description")).

Definition species_constraint (species : string) (d : document) : bool :=
  store_eq (d !! "species") (VStr species).

Definition size_constraint (size : string) (d : document) : bool :=
  store_eq (d !! "size") (VStr size).

Definition featured_constraint (featured : bool) (d : document) : bool :=
  store_eq (d !! "featured") (VBool featured).

Definition age_min_constraint (age_min : Z) (d : document) : bool :=
  match d !! "age" with
  | Some (VInt n) => (age_min <=? n)%Z
  | _ => false
  end.

Definition age_max_constraint (age_max : Z) (d : document) : bool :=
  match d !! "age" with
  | Some (VInt n) => (n <=? age_max)%Z
  | _ => false
  end.

(** A parameter that is absent contributes no constraint. *)
Definition when_supplied {A} (x : option A) (constraint : A → bool) : bool :=
  match x with
  | Some a => constraint a
  | None => true
  end.

(** The parameters with which the query of [list_animals] runs: the driver
    can encode the age bounds that are supplied, and the store accepts [q],
    when it is not empty, as a pattern. *)
Definition bounds_encodable (age_min age_max : option Z) : bool :=
  when_supplied age_min int64 && when_supplied age_max int64.

Definition pattern_accepted `{RegexEngine} (q : option string) : bool :=
  when_supplied (truthy q) (regex_compiles "i").

(** The logical AND of the constraints of the parameters that are supplied,
    a parameter counting as supplied when it is not [None]. *)
Definition supplied_constraints `{RegexEngine}
    (q species : option string) (age_min age_max : option Z)
    (size : option string) (featured : option bool) (d : document) : bool :=
  when_supplied q (λ q, q_constraint q d) &&
  when_supplied species (λ s, species_constraint s d) &&
  when_supplied size (λ s, size_constraint s d) &&
  when_supplied featured (λ b, featured_constraint b d) &&
  when_supplied age_min (λ a, age_min_constraint a d) &&
  when_supplied age_max (λ b, age_max_constraint b d).

(** ** Substrings *)




Fixpoint prefix_b (p s : string) : bool :=
  match p with
  | EmptyString => true
  | String a p' =>
      match s with
      | EmptyString => false
      | String b s' => Ascii.eqb a b && prefix_b p' s'
      end
  end.

Fixpoint occurs_b (p s : string) : bool :=
  prefix_b p s ||
  match s with
  | EmptyString => false
  | String _ s' => occurs_b p s'
  end.

(** ** The example animals of [seed_data] *)

Definition seed_luna : document :=
  <["name" := VStr "Luna"]>
  (<["species" := VStr "dog"]>
  (<["breed" := VStr "Labrador Mix"]>
  (<["age" := VInt 3]>
  (<["size" := VStr "large"]>
  (<["gender" := VStr "female"]>
  (<["description" := VStr "Playful, gentle, loves long walks and belly rubs."]>
  (<["photos" := VStrs ["https://images.unsplash.com/photo-1543466835-00a7907e9de1?q=80&w=1200&auto=format&fit=crop"]]>
  (<["featured" := VBool true]>
  (<["location" := VStr "Shelter A"]>
  (<["good_with_kids" := VBool true]>
  (<["good_with_pets" := VBool true]> ∅))))))))))).

Definition seed_milo : document :=
  <["name" := VStr "Milo"]>
  (<["species" := VStr "cat"]>
  (<["breed" := VStr "Tabby"]>
  (<["age" := VInt 2]>
  (<["size" := VStr "medium"]>
  (<["gender" := VStr "male"]>
  (<["description" := VStr "Calm cuddle buddy who enjoys sunny windows."]>
  (<["photos" := VStrs ["https://images.unsplash.com/photo-1518791841217-8f162f1e1131?q=80&w=1200&auto=format&fit=crop"]]>
  (<["featured" := VBool true]>
  (<["location" := VStr "Shelter B"]>
  (<["good_with_kids" := VBool true]>
  (<["good_with_pets" := VBool false]> ∅))))))))))).

Definition seed_poppy : document :=
  <["name" := VStr "Poppy"]>
  (<["species" := VStr "rabbit"]>
  (<["breed" := VStr "Mini Rex"]>
  (<["age" := VInt 1]>
  (<["size" := VStr "small"]>
  (<["gender" := VStr "female"]>
  (<["description" := VStr "Curious and gentle, loves greens."]>
  (<["photos" := VStrs ["https://images.unsplash.com/photo-1452857297128-d9c29adba80b?q=80&w=1200&auto=format&fit=crop"]]>
  (<["featured" := VBool false]>
  (<["location" := VStr "Foster Home"]> ∅))))))))).

(** A seeded document as the store returns it, with its identity. *)
Definition in_store (oid : string) (d : document) : document := <["_id" := VOid oid]> d.

(** ** Seeding at startup: [seed_data] *)

Definition seed_story_luna : document :=
  <["title" := VStr "Luna found her forever home"]>
  (<["animal_name" := VStr "Luna"]>
  (<["content" := VStr "After weeks of training and love, Luna is now hiking every weekend with her new family!"]>
  (<["image_url" := VStr "https://images.unsplash.com/photo-1548199973-03cce0bbc87b?q=80&w=1200&auto=format&fit=crop"]> ∅))).

Definition seed_story_milo : document :=
  <["title" := VStr "Milo the office cat"]>
  (<["animal_name" := VStr "Milo"]>
  (<["content" := VStr "Milo helps his adopter debug code and nap responsibly."]>
  (<["image_url" := VStr "https://images.unsplash.com/photo-1511044568932-338cba0ad803?q=80&w=1200&auto=format&fit=crop"]> ∅))).

(** The list [examples] of [seed_data] and the list of stories it inserts. *)
Definition seed_animals : list document := [seed_luna; seed_milo; seed_poppy].
Definition seed_stories : list document := [seed_story_luna; seed_story_milo].

(** The two ways a call of [count_documents] ends. *)
Inductive count_result :=
  | Counted (n : nat)
  | CountRaised (cause : string).

(** The two ways a call of [insert_many] ends. *)
Inductive write_result :=
  | Written
  | WriteRaised (cause : string).

(** The collection operations [seed_data] calls on the handle [db], over
    the state [St] of the store behind it: [count_documents({})] leaves the
    store as it is, [insert_many(docs)] may change it, and either may
    raise. *)
Class Driver (St : Type) := {
  count_documents : string → St → count_result;
  insert_many : string → list document → St → write_result * St
}.

(** [seed_data()]: nothing happens without a store; a collection is filled
    with the examples only when it counts no document; an exception of any
    step ends the function silently ([except Exception: pass]), so the
    steps after it do not run.  The result is the state of the store when
    the function returns. *)
Definition seed_data `{Driver St} (db : option St) : option St :=
  match db with
  | None => None
  | Some st =>
      match count_documents "animal" st with
      | CountRaised _ => Some st
      | Counted n =>
          let '(r, st1) :=
            if (n =? 0)%nat then insert_many "animal" seed_animals st
            else (Written, st) in
          match r with
          | WriteRaised _ => Some st1
          | Written =>
              match count_documents "story" st1 with
              | CountRaised _ => Some st1
              | Counted m =>
                  if (m =? 0)%nat then Some (snd (insert_many "story" seed_stories st1))
                  else Some st1
              end
          end
      end
  end.

(** *** A reference driver *)

(** The store as a pure value: its collections, and how many identities
    the driver has generated. *)
Record mongo := Mongo {
  collections : database;
  issued : N
}.

(** The driver gives each inserted document that has no [_id] a new
    identity, in order. *)
Fixpoint assign_ids (next : N) (docs : list document) : list document :=
  match docs with
  | [] => []
  | d :: docs' =>
      match d !! "_id" with
      | Some _ => d :: assign_ids next docs'
      | None => in_store (oid_text next) d :: assign_ids (N.succ next) docs'
      end
  end.

Fixpoint count_new (docs : list document) : N :=
  match docs with
  | [] => 0
  | d :: docs' =>
      match d !! "_id" with
      | Some _ => count_new docs'
      | None => N.succ (count_new docs')
      end
  end.

(** A driver that never loses its connection: counting and inserting
    succeed, except that [insert_many] of an empty list raises. *)
Definition pure_driver : Driver mongo := {|
  count_documents name s := Counted (length (collection (collections s) name));
  insert_many name docs s :=
    match docs with
    | [] => (WriteRaised "documents must be a non-empty list", s)
    | _ =>
        (Written,
         Mongo (<[name := (collection (collections s) name ++ assign_ids (issued s) docs)%list]>
                  (collections s))
               (issued s + count_new docs))
    end
|}.

(** A driver whose every operation raises, as with a lost connection. *)
Definition failing_driver : Driver mongo := {|
  count_documents name s := CountRaised "connection refused";
  insert_many name docs s := (WriteRaised "connection refused", s)
|}.

(** ** Orderings used in the statements *)

(** [weaker o' o]: the parameter [o'] is absent, or is [o]. *)
Definition weaker {A} (o' o : option A) : Prop := o' = None ∨ o' = o.

(** The store after the animal step and after the story step of
    [seed_data], with the reference driver. *)
Definition after_animals (s : mongo) : mongo :=
  match collection (collections s) "animal" with
  | [] => snd (@insert_many mongo pure_driver "animal" seed_animals s)
  | _ => s
  end.

Definition after_stories (s : mongo) : mongo :=
  match collection (collections s) "story" with
  | [] => snd (@insert_many mongo pure_driver "story" seed_stories s)
  | _ => s
  end.


(** A store with the examples of [seed_data] in it, each with an
    identity, used to run the read handlers. *)
Definition example_db : database :=
  <["animal" := [ in_store (oid_text 0) seed_luna;
                  in_store (oid_text 1) seed_milo;
                  in_store (oid_text 2) seed_poppy ]]>
    (<["story" := [ in_store (oid_text 3) seed_story_luna;
                    in_store (oid_text 4) seed_story_milo ]]> ∅).

(** * Properties *)

(** ** Evaluation of filters *)

Section FilterFacts.
Context `{!RegexEngine}.

Lemma matches_empty (d : document) : matches ∅ d = true.
Proof. apply bool_decide_eq_true, map_Forall_empty. Qed.

Lemma matches_insert (filt : filter_doc) (k : string) (c : clause) (d : document) :
  filt !! k = None →
  matches (<[k := c]> filt) d = clause_holds k c d && matches filt d.
Proof.
  intros Hk. unfold matches.
  destruct (clause_holds k c d) eqn:Hc; simpl.
  - apply bool_decide_ext. rewrite map_Forall_insert by done.
    split; [intros [_ ?]; done | intros; split; done].
  - apply bool_decide_eq_false. rewrite map_Forall_insert by done.
    intros [? _]. congruence.
Qed.

Lemma fields_hold_singleton (k : string) (c : field_cond) (d : document) :
  fields_hold {[k := c]} d = field_holds (d !! k) c.
Proof.
  unfold fields_hold. destruct (field_holds (d !! k) c) eqn:Hc.
  - apply bool_decide_eq_true, map_Forall_singleton. done.
  - apply bool_decide_eq_false. rewrite map_Forall_singleton. congruence.
Qed.

(** The three alternatives under [$or] are the free-text constraint. *)
Lemma or_clause_holds (k q : string) (d : document) :
  clause_holds k
    (COr [ {["name" := CRegex q "i"]};
           {["breed" := CRegex q "i"]};
           {["description" := CRegex q "i"]} ]) d
  = q_constraint q d.
Proof.
  unfold clause_holds, q_constraint. simpl.
  rewrite !fields_hold_singleton. simpl.
  rewrite orb_false_r, orb_assoc. reflexivity.
Qed.

(** A range document holds on an integer when each of its bounds does. *)
Lemma range_forall_insert (m : gmap string Z) (op : string) (bound n : Z) :
  m !! op = None →
  bool_decide (map_Forall (λ op bound, range_op op bound n = true) (<[op := bound]> m))
  = range_op op bound n && bool_decide (map_Forall (λ op bound, range_op op bound n = true) m).
Proof.
  intros Hop. destruct (range_op op bound n) eqn:Hr; simpl.
  - apply bool_decide_ext. rewrite map_Forall_insert by done.
    split; [intros [_ ?]; done | intros; split; done].
  - apply bool_decide_eq_false. rewrite map_Forall_insert by done.
    intros [? _]. congruence.
Qed.

Lemma range_holds (age_min age_max : option Z) (n : Z) :
  let age_query : gmap string Z := ∅ in
  let age_query :=
    match age_min with Some a => <["$gte" := a]> age_query | None => age_query end in
  let age_query :=
    match age_max with Some b => <["$lte" := b]> age_query | None => age_query end in
  bool_decide (map_Forall (λ op bound, range_op op bound n = true) age_query)
  = when_supplied age_min (λ a, (a <=? n)%Z) && when_supplied age_max (λ b, (n <=? b)%Z).
Proof.
  assert (Hempty : bool_decide
            (map_Forall (λ op bound, range_op op bound n = true) (∅ : gmap string Z)) = true)
    by apply bool_decide_eq_true, map_Forall_empty.
  destruct age_min as [a|], age_max as [b|]; simpl;
    rewrite ?range_forall_insert, ?Hempty by (by simplify_map_eq);
    unfold range_op; simpl; rewrite ?andb_true_r; auto using andb_comm.
Qed.

(** The age clause on a document, bound by bound. *)
Lemma age_clause_holds (age_min age_max : option Z) (d : document) :
  (age_min ≠ None ∨ age_max ≠ None) →
  let age_query : gmap string Z := ∅ in
  let age_query :=
    match age_min with Some a => <["$gte" := a]> age_query | None => age_query end in
  let age_query :=
    match age_max with Some b => <["$lte" := b]> age_query | None => age_query end in
  clause_holds "age" (CField (CRange age_query)) d
  = when_supplied age_min (λ a, age_min_constraint a d) &&
    when_supplied age_max (λ b, age_max_constraint b d).
Proof.
  intros Hsome. cbv zeta. unfold clause_holds, field_holds.
  unfold age_min_constraint, age_max_constraint.
  destruct (d !! "age") as [[| | n | | |]|] eqn:Hage;
    try (destruct age_min, age_max; simpl; try reflexivity;
         rewrite ?andb_false_r; try reflexivity; destruct Hsome; congruence).
  pose proof (range_holds age_min age_max n) as Hr. cbv zeta in Hr. rewrite Hr.
  destruct age_min, age_max; reflexivity.
Qed.

(** The filter of [list_animals], clause by clause: each parameter that is
    true in its Python condition adds its own constraint, and the filter is
    their conjunction. *)
Lemma filter_decomposition
    (q species : option string) (age_min age_max : option Z)
    (size : option string) (featured : option bool) (d : document) :
  matches (list_animals_filter q species age_min age_max size featured) d
  = supplied_constraints (truthy q) (truthy species) age_min age_max
      (truthy size) featured d.
Proof.
  unfold list_animals_filter, supplied_constraints. cbv zeta.
  assert (Hage : ∀ (filt : filter_doc),
    filt !! "age" = None →
    matches
      (if decide
            (match age_max with
             | Some b =>
                 <["$lte" := b]>
                   (match age_min with Some a => <["$gte" := a]> ∅ | None => ∅ end)
             | None => match age_min with Some a => <["$gte" := a]> ∅ | None => ∅ end
             end = (∅ : gmap string Z))
       then filt
       else <["age" := CField
                (CRange
                   (match age_max with
                    | Some b =>
                        <["$lte" := b]>
                          (match age_min with Some a => <["$gte" := a]> ∅ | None => ∅ end)
                    | None => match age_min with Some a => <["$gte" := a]> ∅ | None => ∅ end
                    end))]> filt) d
    = matches filt d &&
      (when_supplied age_min (λ a, age_min_constraint a d) &&
       when_supplied age_max (λ b, age_max_constraint b d))).
  { intros filt Hfilt. case_decide as Hempty.
    - destruct age_min, age_max;
        try (exfalso; revert Hempty; apply insert_non_empty).
      simpl. rewrite andb_true_r. reflexivity.
    - rewrite matches_insert by done.
      pose proof (age_clause_holds age_min age_max d) as Hc. cbv zeta in Hc.
      rewrite Hc; [apply andb_comm|].
      destruct age_min, age_max; auto; done. }
  destruct (truthy q) as [q'|], (truthy species) as [species'|],
    (truthy size) as [size'|], featured as [featured'|];
    rewrite Hage by (by simplify_map_eq);
    rewrite ?matches_insert by (by simplify_map_eq);
    rewrite ?matches_empty, ?or_clause_holds; simpl;
    unfold species_constraint, size_constraint, featured_constraint; btauto.
Qed.

(** *** The queries that raise *)

Lemma forall_insert_b {A} (P : A → bool) (m : gmap string A) (k : string) (v : A) :
  m !! k = None →
  bool_decide (map_Forall (λ _ x, P x = true) (<[k := v]> m))
  = P v && bool_decide (map_Forall (λ _ x, P x = true) m).
Proof.
  intros Hk. destruct (P v) eqn:Hv; simpl.
  - apply bool_decide_ext. rewrite map_Forall_insert by done.
    split; [intros [_ ?]; done | intros; split; done].
  - apply bool_decide_eq_false. rewrite map_Forall_insert by done.
    intros [? _]. congruence.
Qed.

Lemma forall_empty_b {A} (P : A → bool) :
  bool_decide (map_Forall (λ _ x, P x = true) (∅ : gmap string A)) = true.
Proof. apply bool_decide_eq_true, map_Forall_empty. Qed.

Lemma forall_singleton_b {A} (P : A → bool) (k : string) (v : A) :
  bool_decide (map_Forall (λ _ x, P x = true) ({[k := v]} : gmap string A)) = P v.
Proof.
  rewrite <- insert_empty, forall_insert_b by apply lookup_empty.
  rewrite forall_empty_b. apply andb_true_r.
Qed.

Lemma filter_all_empty (P : field_cond → bool) : filter_all P ∅ = true.
Proof. apply forall_empty_b. Qed.

Lemma filter_all_insert (P : field_cond → bool) (filt : filter_doc) (k : string) (c : clause) :
  filt !! k = None →
  filter_all P (<[k := c]> filt) = clause_all P c && filter_all P filt.
Proof. apply (forall_insert_b (clause_all P)). Qed.

Ltac filter_all_cases :=
  unfold list_animals_filter; cbv zeta;
  repeat match goal with
         | |- context [truthy ?o] => destruct (truthy o)
         end;
  repeat match goal with
         | |- context [match ?o with Some _ => _ | None => _ end] => is_var o; destruct o
         end;
  match goal with
  | |- context [decide (?m = ∅)] =>
      destruct (decide (m = ∅)) as [Hempty | Hempty];
      [ try (exfalso; revert Hempty; apply insert_non_empty)
      | try (exfalso; apply Hempty; reflexivity) ]
  end;
  rewrite ?filter_all_insert by (by simplify_map_eq);
  rewrite filter_all_empty; cbn [clause_all forallb];
  rewrite ?forall_singleton_b.

(** The driver can encode the filter exactly when it can encode each age
    bound that is supplied. *)
Lemma filter_encodable
    (q species : option string) (age_min age_max : option Z)
    (size : option string) (featured : option bool) :
  filter_all cond_encodable (list_animals_filter q species age_min age_max size featured)
  = bounds_encodable age_min age_max.
Proof.
  unfold bounds_encodable. filter_all_cases; cbn [cond_encodable when_supplied];
    rewrite ?forall_insert_b, ?forall_empty_b by (by simplify_map_eq);
    rewrite ?andb_true_r, ?andb_true_l; auto using andb_comm.
Qed.

(** The store accepts every pattern of the filter exactly when it accepts
    [q], the only pattern there may be. *)
Lemma filter_compiles
    (q species : option string) (age_min age_max : option Z)
    (size : option string) (featured : option bool) :
  filter_all cond_compiles (list_animals_filter q species age_min age_max size featured)
  = pattern_accepted q.
Proof.
  unfold pattern_accepted. filter_all_cases; cbn [cond_compiles when_supplied];
    rewrite ?andb_true_r, ?andb_true_l, ?andb_diag; reflexivity.
Qed.

Lemma query_error_list_animals
    (q species : option string) (age_min age_max : option Z)
    (size : option string) (featured : option bool) :
  query_error (list_animals_filter q species age_min age_max size featured)
  = if negb (bounds_encodable age_min age_max) then Some "OverflowError"
    else if negb (pattern_accepted q) then Some "OperationFailure"
    else None.
Proof. unfold query_error. rewrite filter_encodable, filter_compiles. reflexivity. Qed.

(** With parameters on which the query runs, [list_animals] returns the
    projections of the selected documents, cut at the limit. *)
Lemma list_animals_returns
    (db : database) (q species : option string) (age_min age_max : option Z)
    (size : option string) (featured : option bool) (limit : Z) :
  bounds_encodable age_min age_max = true →
  pattern_accepted q = true →
  list_animals (Some db) q species age_min age_max size featured limit
  = Returned
      (map (λ d, to_public (Some d))
         (cursor_limit limit
            (find (collection db "animal")
               (list_animals_filter q species age_min age_max size featured)))).
Proof.
  intros Hb Hq. unfold list_animals. rewrite query_error_list_animals, Hb, Hq. reflexivity.
Qed.

(** With any other parameters an exception leaves it. *)
Lemma list_animals_throws
    (db : database) (q species : option string) (age_min age_max : option Z)
    (size : option string) (featured : option bool) (limit : Z) :
  bounds_encodable age_min age_max && pattern_accepted q = false →
  ∃ exception,
    list_animals (Some db) q species age_min age_max size featured limit = Thrown exception.
Proof.
  intros Hno. unfold list_animals. rewrite query_error_list_animals.
  destruct (bounds_encodable age_min age_max); simpl in *; [rewrite Hno|]; eauto.
Qed.

(** What [list_animals] returns, when it returns, is the projection of the
    selection. *)
Lemma list_animals_returned
    (db : database) (q species : option string) (age_min age_max : option Z)
    (size : option string) (featured : option bool) (limit : Z)
    (rows : list (option document)) :
  list_animals (Some db) q species age_min age_max size featured limit = Returned rows →
  rows = map (λ d, to_public (Some d))
           (cursor_limit limit
              (find (collection db "animal")
                 (list_animals_filter q species age_min age_max size featured))).
Proof.
  unfold list_animals. destruct (query_error _); [discriminate|]. intros [= <-]. reflexivity.
Qed.

End FilterFacts.

(** ** Substring search *)




Lemma plain_cons (p : ascii) (q : string) :
  plain (String p q) = true → p ≠ "."%char ∧ plain q = true.
Proof.
  unfold plain, in_fragment.
  assert (Hd : ∀ set, disjoint_from set (String p q)
                      = negb (mentions p set) && disjoint_from set q) by reflexivity.
  assert (Hm : mentions "."%char (String p q)
               = Ascii.eqb p "."%char || mentions "."%char q) by reflexivity.
  rewrite Hd, Hm. clear Hd Hm.
  intros H. apply andb_true_iff in H as [Hfrag Hdot].
  apply andb_true_iff in Hfrag as [_ Hfrag].
  apply negb_true_iff, orb_false_iff in Hdot as [Hp Hrest]. split.
  - intros ->. discriminate.
  - rewrite Hfrag, Hrest. reflexivity.
Qed.

(** On a pattern without metacharacters the caseless engine compares the
    folded texts. *)
Lemma match_here_plain (q s : string) :
  plain q = true →
  match_here true q s = prefix_b (lower_str q) (lower_str s).
Proof.
  revert s. induction q as [|p q IH]; intros s Hplain; simpl; [reflexivity|].
  apply plain_cons in Hplain as [Hdot Hplain].
  destruct s as [|c s]; simpl; [reflexivity|].
  rewrite IH by exact Hplain. unfold atom_matches.
  destruct (Ascii.eqb p ".") eqn:Hp; [apply Ascii.eqb_eq in Hp; contradiction|].
  reflexivity.
Qed.

Lemma search_from_plain (q s : string) :
  plain q = true →
  search_from true q s = occurs_b (lower_str q) (lower_str s).
Proof.
  intros Hplain. induction s as [|c s IH]; simpl.
  - rewrite (match_here_plain q EmptyString Hplain). reflexivity.
  - rewrite (match_here_plain q (String c s) Hplain), IH. reflexivity.
Qed.


(** ** The search filter of [GET /animals] *)

Section SearchFilter.
Context `{!RegexEngine}.

Lemma find_spec (coll : list document) (filt : filter_doc) (d : document) :
  d ∈ find coll filt ↔ d ∈ coll ∧ matches filt d = true.
Proof. unfold find. rewrite !list_elem_of_In. apply filter_In. Qed.

(** C1, as amended.  The filter built from the search parameters is the
    logical AND of the constraints of the parameters that are supplied,
    where a [q], [species] or [size] that is the empty text counts as
    absent, like one that was not sent: a document of the collection is
    selected iff it satisfies the constraint of each such parameter, and an
    absent parameter contributes no constraint. *)
Theorem filter_is_conjunction_of_supplied
    (q species : option string) (age_min age_max : option Z)
    (size : option string) (featured : option bool) :
  (∀ d : document,
     matches (list_animals_filter q species age_min age_max size featured) d
     = supplied_constraints (truthy q) (truthy species) age_min age_max
         (truthy size) featured d)
  ∧ (∀ (coll : list document) (d : document),
       d ∈ find coll (list_animals_filter q species age_min age_max size featured)
       ↔ d ∈ coll ∧
         supplied_constraints (truthy q) (truthy species) age_min age_max
           (truthy size) featured d = true).
Proof.
  split.
  - intros d. apply filter_decomposition.
  - intros coll d. rewrite find_spec, filter_decomposition. reflexivity.
Qed.

(** C5.  With the age bounds supplied, the filter selects an animal of age
    [n] iff the other constraints hold and [age_min <= n] (when supplied)
    and [n <= age_max] (when supplied); each bound works alone; with the
    bounds 2 and 5 the ages 2, 3, 4, 5 are selected and no other. *)
Theorem age_bounds_closed_interval
    (q species : option string) (age_min age_max : option Z)
    (size : option string) (featured : option bool) (d : document) (n : Z) :
  d !! "age" = Some (VInt n) →
  matches (list_animals_filter q species age_min age_max size featured) d
  = matches (list_animals_filter q species None None size featured) d
    && when_supplied age_min (λ a, (a <=? n)%Z)
    && when_supplied age_max (λ b, (n <=? b)%Z)
  ∧ (matches (list_animals_filter None None age_min age_max None None) d = true
     ↔ (∀ a, age_min = Some a → (a ≤ n)%Z) ∧ (∀ b, age_max = Some b → (n ≤ b)%Z))
  ∧ (matches (list_animals_filter None None (Some 2%Z) (Some 5%Z) None None) d = true
     ↔ n = 2%Z ∨ n = 3%Z ∨ n = 4%Z ∨ n = 5%Z).
Proof.
  intros Hage.
  assert (Hone : ∀ q species size featured,
    matches (list_animals_filter q species age_min age_max size featured) d
    = matches (list_animals_filter q species None None size featured) d
      && when_supplied age_min (λ a, (a <=? n)%Z)
      && when_supplied age_max (λ b, (n <=? b)%Z)).
  { intros q0 species0 size0 featured0. rewrite !filter_decomposition.
    unfold supplied_constraints, age_min_constraint, age_max_constraint.
    rewrite Hage. simpl. rewrite !andb_true_r.
    destruct age_min, age_max; simpl; rewrite ?andb_true_r, ?andb_assoc; reflexivity. }
  split; [apply Hone|]. split.
  - rewrite Hone, filter_decomposition. simpl.
    rewrite !andb_true_iff. split.
    + intros [Hmin Hmax]. split.
      * intros a ->. simpl in Hmin. lia.
      * intros b ->. simpl in Hmax. lia.
    + intros [Hmin Hmax]. split.
      * destruct age_min as [a|]; simpl; [|reflexivity].
        specialize (Hmin a eq_refl). lia.
      * destruct age_max as [b|]; simpl; [|reflexivity].
        specialize (Hmax b eq_refl). lia.
  - rewrite filter_decomposition. unfold supplied_constraints.
    unfold age_min_constraint, age_max_constraint. rewrite Hage. simpl.
    rewrite andb_true_iff. lia.
Qed.

(** C6.  [featured] constrains the result by exact boolean match exactly
    when it is present: the filter has an equality clause on [featured] iff
    the parameter is not [None]; a supplied [false] selects only documents
    whose [featured] is false; an absent parameter adds nothing to the
    other constraints. *)
Theorem featured_filter_exact_when_present
    (q species : option string) (age_min age_max : option Z)
    (size : option string) (featured : option bool) (d : document) :
  list_animals_filter q species age_min age_max size featured !! "featured"
  = (λ b, CField (CEq (VBool b))) <$> featured
  ∧ matches (list_animals_filter q species age_min age_max size featured) d
    = matches (list_animals_filter q species age_min age_max size None) d
      && when_supplied featured (λ b, bool_decide (d !! "featured" = Some (VBool b)))
  ∧ (matches (list_animals_filter None None None None None (Some false)) d = true
     ↔ d !! "featured" = Some (VBool false))
  ∧ matches (list_animals_filter None None None None None None) d = true.
Proof.
  assert (Heq : ∀ b, store_eq (d !! "featured") (VBool b)
                     = bool_decide (d !! "featured" = Some (VBool b))).
  { intros b. unfold store_eq.
    destruct (d !! "featured") as [[| b' | | | |]|]; simpl;
      first [ reflexivity
            | apply bool_decide_ext; split; congruence
            | symmetry; apply bool_decide_eq_false; congruence ]. }
  split; [|split; [|split]].
  - unfold list_animals_filter. cbv zeta.
    destruct (truthy q), (truthy species), (truthy size), featured, age_min, age_max;
      case_decide; by simplify_map_eq.
  - rewrite !filter_decomposition. unfold supplied_constraints, featured_constraint.
    destruct featured as [b|]; simpl; [rewrite Heq|]; btauto.
  - rewrite filter_decomposition. unfold supplied_constraints, featured_constraint.
    simpl. rewrite Heq, !andb_true_r. apply bool_decide_eq_true.
  - rewrite filter_decomposition. reflexivity.
Qed.

End SearchFilter.

(** A witness for C5: Luna, of age 3, under the bounds 2 and 5. *)
Lemma age_bounds_closed_interval_witness :
  seed_luna !! "age" = Some (VInt 3) ∧
  @matches fragment_engine
    (list_animals_filter None None (Some 2%Z) (Some 5%Z) None None) seed_luna = true.
Proof.
  assert (H : seed_luna !! "age" = Some (VInt 3)) by (vm_compute; reflexivity).
  split; [exact H|].
  destruct (@age_bounds_closed_interval fragment_engine
              None None (Some 2%Z) (Some 5%Z) None None seed_luna 3%Z H)
    as (_ & _ & Hex).
  apply Hex. right. left. reflexivity.
Defined.

(** Counterexample to C1 as stated: [species] sent as the empty text is a
    supplied parameter, and no constraint: the cat Milo is selected, though
    its species is not the empty text. *)
Lemma empty_species_is_no_constraint :
  @matches fragment_engine
    (list_animals_filter None (Some EmptyString) None None None None) seed_milo = true
  ∧ species_constraint EmptyString seed_milo = false
  ∧ @supplied_constraints fragment_engine
      None (Some EmptyString) None None None None seed_milo = false.
Proof. repeat split; vm_compute; reflexivity. Qed.

(** ** Parameter validation of the read routes *)

Lemma check_ge_nil (loc : string) (bound : Z) (x : option Z) :
  check_ge loc bound x = [] ↔ ∀ n, x = Some n → (bound ≤ n)%Z.
Proof.
  unfold check_ge. destruct x as [n|].
  - destruct (n <? bound)%Z eqn:Hn; split.
    + discriminate.
    + intros Hall. specialize (Hall n eq_refl). lia.
    + intros _ m [= <-]. lia.
    + reflexivity.
  - split; [intros _ n; discriminate | reflexivity].
Qed.

Lemma check_le_nil (loc : string) (bound : Z) (x : option Z) :
  check_le loc bound x = [] ↔ ∀ n, x = Some n → (n ≤ bound)%Z.
Proof.
  unfold check_le. destruct x as [n|].
  - destruct (bound <? n)%Z eqn:Hn; split.
    + discriminate.
    + intros Hall. specialize (Hall n eq_refl). lia.
    + intros _ m [= <-]. lia.
    + reflexivity.
  - split; [intros _ n; discriminate | reflexivity].
Qed.

(** The parameters of [GET /animals] pass validation exactly when both age
    bounds are at least 0 and the limit lies in 1..100. *)
Lemma animals_request_errors_nil (r : animals_request) :
  animals_request_errors r = []
  ↔ (∀ n, r_age_min r = Some n → (0 ≤ n)%Z)
    ∧ (∀ n, r_age_max r = Some n → (0 ≤ n)%Z)
    ∧ (∀ n, r_limit r = Some n → (1 ≤ n ≤ 100)%Z).
Proof.
  unfold animals_request_errors.
  rewrite !app_nil, !check_ge_nil, check_le_nil. split.
  - intros (Hmin & Hmax & Hlo & Hhi). split; [exact Hmin|]. split; [exact Hmax|].
    intros n Hn. split; [apply Hlo | apply Hhi]; exact Hn.
  - intros (Hmin & Hmax & Hlim). split; [exact Hmin|]. split; [exact Hmax|].
    split; intros n Hn; apply Hlim; exact Hn.
Qed.

Section Routes.
Context `{!RegexEngine}.

Lemma route_animals_valid (db : option database) (r : animals_request) :
  animals_request_errors r = [] →
  route_animals db r
  = match list_animals db (r_q r) (r_species r) (r_age_min r) (r_age_max r)
            (r_size r) (r_featured r) (default 24%Z (r_limit r)) with
    | Returned rows => Ok rows
    | Thrown _ => ServerError internal_error
    end.
Proof. intros Hr. unfold route_animals. rewrite Hr. reflexivity. Qed.

(** An answer that is not an error comes from a valid request on which the
    handler returned. *)
Lemma route_animals_ok (db : option database) (r : animals_request)
    (body : list (option document)) :
  route_animals db r = Ok body →
  animals_request_errors r = []
  ∧ list_animals db (r_q r) (r_species r) (r_age_min r) (r_age_max r)
      (r_size r) (r_featured r) (default 24%Z (r_limit r)) = Returned body.
Proof.
  unfold route_animals. destruct (animals_request_errors r); [|discriminate].
  destruct (list_animals _ _ _ _ _ _ _ _); [|discriminate].
  intros [= <-]. auto.
Qed.

(** Without parameters the query runs, and selects every document. *)
Lemma list_animals_unfiltered (db : database) (limit : Z) :
  list_animals (Some db) None None None None None None limit
  = Returned (map (λ d, to_public (Some d)) (cursor_limit limit (collection db "animal"))).
Proof.
  rewrite list_animals_returns by reflexivity.
  change (list_animals_filter None None None None None None) with (∅ : filter_doc).
  unfold find. f_equal. f_equal. f_equal.
  induction (collection db "animal") as [|d coll IH]; simpl; [reflexivity|].
  rewrite matches_empty, IH. reflexivity.
Qed.

Lemma route_animals_invalid (db : option database) (r : animals_request) :
  animals_request_errors r ≠ [] →
  route_animals db r = ValidationError (animals_request_errors r).
Proof.
  intros Hr. unfold route_animals.
  destruct (animals_request_errors r); [contradiction | reflexivity].
Qed.

Lemma find_all (coll : list document) : find coll ∅ = coll.
Proof.
  unfold find. induction coll as [|d coll IH]; simpl; [reflexivity|].
  rewrite matches_empty, IH. reflexivity.
Qed.

(** C10.  A negative [age_min] or [age_max] is rejected with a validation
    error, whatever the store and the other parameters; whenever the route
    answers with a result, both bounds are at least 0, and so is every
    bound of the age clause of the filter it built. *)
Theorem negative_age_bounds_rejected (db : option database) (r : animals_request) :
  ((∃ n, (r_age_min r = Some n ∨ r_age_max r = Some n) ∧ (n < 0)%Z) →
     ∃ errors, route_animals db r = ValidationError errors ∧ errors ≠ [])
  ∧ (∀ body, route_animals db r = Ok body →
       (∀ n, r_age_min r = Some n → (0 ≤ n)%Z)
       ∧ (∀ n, r_age_max r = Some n → (0 ≤ n)%Z)
       ∧ ∀ ops,
           list_animals_filter (r_q r) (r_species r) (r_age_min r) (r_age_max r)
             (r_size r) (r_featured r) !! "age" = Some (CField (CRange ops)) →
           map_Forall (λ _ bound, (0 ≤ bound)%Z) ops).
Proof.
  split.
  - intros (n & Hn & Hneg). exists (animals_request_errors r).
    assert (Herr : animals_request_errors r ≠ []).
    { rewrite animals_request_errors_nil. intros (Hmin & Hmax & _).
      destruct Hn as [Hn | Hn]; [apply Hmin in Hn | apply Hmax in Hn]; lia. }
    split; [apply route_animals_invalid; exact Herr | exact Herr].
  - intros body Hok.
    apply route_animals_ok in Hok as [Hnil _].
    apply animals_request_errors_nil in Hnil as (Hmin & Hmax & _).
    split; [exact Hmin|]. split; [exact Hmax|].
    intros ops. unfold list_animals_filter. cbv zeta.
    destruct (r_age_min r) as [a|], (r_age_max r) as [b|]; case_decide as Hempty;
      try (exfalso; revert Hempty; apply insert_non_empty);
      try (exfalso; apply Hempty; reflexivity).
    + rewrite lookup_insert_eq. intros [= <-].
      rewrite !map_Forall_insert by (by simplify_map_eq).
      repeat apply conj; first [ exact (Hmin _ eq_refl)
                               | exact (Hmax _ eq_refl)
                               | exact (map_Forall_empty _) ].
    + rewrite lookup_insert_eq. intros [= <-].
      rewrite !map_Forall_insert by (by simplify_map_eq).
      repeat apply conj; first [ exact (Hmin _ eq_refl)
                               | exact (Hmax _ eq_refl)
                               | exact (map_Forall_empty _) ].
    + rewrite lookup_insert_eq. intros [= <-].
      rewrite !map_Forall_insert by (by simplify_map_eq).
      repeat apply conj; first [ exact (Hmin _ eq_refl)
                               | exact (Hmax _ eq_refl)
                               | exact (map_Forall_empty _) ].
    + destruct (truthy (r_q r)), (truthy (r_species r)), (truthy (r_size r)),
        (r_featured r); by simplify_map_eq.
Qed.

(** C4, as amended.  With the store unconfigured each read handler returns
    the empty list, whatever its arguments, and so does each read route for
    every choice of query parameters that passes the validation of its
    declared parameters: on [GET /animals], age bounds of at least 0 and a
    limit in 1..100.  A request of [GET /animals] with a parameter that
    does not pass is answered with the validation error and its
    violations, whatever the state of the store. *)
Theorem unconfigured_store_reads_empty (r : animals_request) (limit : option Z) :
  (∀ q species age_min age_max size featured n,
     list_animals None q species age_min age_max size featured n = Returned [])
  ∧ featured_animals None = []
  ∧ (∀ n, get_stories None n = [])
  ∧ (animals_request_errors r = [] → route_animals None r = Ok [])
  ∧ route_featured None r = Ok []
  ∧ route_stories None limit = Ok []
  ∧ (animals_request_errors r = []
     ↔ (∀ n, r_age_min r = Some n → (0 ≤ n)%Z)
       ∧ (∀ n, r_age_max r = Some n → (0 ≤ n)%Z)
       ∧ (∀ n, r_limit r = Some n → (1 ≤ n ≤ 100)%Z))
  ∧ (∀ db, animals_request_errors r ≠ [] →
       route_animals db r = ValidationError (animals_request_errors r)
       ∧ route_animals db r = route_animals None r).
Proof.
  split; [reflexivity|]. split; [reflexivity|]. split; [reflexivity|].
  split; [intros Hr; rewrite route_animals_valid by exact Hr; reflexivity|].
  split; [reflexivity|]. split; [reflexivity|].
  split; [apply animals_request_errors_nil|].
  intros db Hr. rewrite !route_animals_invalid by exact Hr. auto.
Qed.

(** C3 on the code.  [GET /stories] puts no bound on [limit]: 0 and 101 are
    accepted and handed to the cursor, where 0 lifts the cap altogether,
    while [GET /animals] rejects both and accepts 1 and 100; the defaults
    are 24 for [GET /animals] and 6 for [GET /stories], and the featured
    listing is cut at 8. *)
Theorem stories_limit_is_not_validated (db : database) :
  route_stories (Some db) (Some 0%Z)
  = Ok (map (λ d, to_public (Some d)) (collection db "story"))
  ∧ route_stories (Some db) (Some 101%Z)
    = Ok (map (λ d, to_public (Some d)) (take 101 (collection db "story")))
  ∧ route_stories (Some db) None
    = Ok (map (λ d, to_public (Some d)) (take 6 (collection db "story")))
  ∧ route_animals (Some db) (with_limit no_parameters (Some 0%Z))
    = ValidationError [Violation "limit" "greater_than_equal"]
  ∧ route_animals (Some db) (with_limit no_parameters (Some 101%Z))
    = ValidationError [Violation "limit" "less_than_equal"]
  ∧ route_animals (Some db) (with_limit no_parameters (Some 1%Z))
    = Ok (map (λ d, to_public (Some d)) (take 1 (collection db "animal")))
  ∧ route_animals (Some db) (with_limit no_parameters (Some 100%Z))
    = Ok (map (λ d, to_public (Some d)) (take 100 (collection db "animal")))
  ∧ route_animals (Some db) no_parameters
    = Ok (map (λ d, to_public (Some d)) (take 24 (collection db "animal"))).
Proof.
  unfold route_stories, get_stories, cursor_limit. simpl. rewrite find_all.
  repeat apply conj; try reflexivity;
    rewrite route_animals_valid by reflexivity; cbn -[list_animals];
    rewrite list_animals_unfiltered; reflexivity.
Qed.

End Routes.

(** Counterexample to C4 as stated: with the store unconfigured and
    [limit=0], [GET /animals] answers with a validation error, not with the
    empty list. *)
Lemma unconfigured_store_invalid_limit :
  @route_animals fragment_engine None (with_limit no_parameters (Some 0%Z))
  = ValidationError [Violation "limit" "greater_than_equal"].
Proof. reflexivity. Qed.

(** A witness for C4: the request without parameters passes validation
    and is answered with the empty list by the unconfigured store. *)
Lemma unconfigured_store_reads_empty_witness :
  animals_request_errors no_parameters = []
  ∧ @route_animals fragment_engine None no_parameters = Ok [].
Proof.
  assert (H : animals_request_errors no_parameters = []) by reflexivity.
  split; [exact H|].
  destruct (@unconfigured_store_reads_empty fragment_engine no_parameters None)
    as (_ & _ & _ & Hroute & _).
  exact (Hroute H).
Defined.

(** A witness for C10: [age_min=-1] is rejected. *)
Lemma negative_age_bounds_rejected_witness :
  ∃ errors,
    @route_animals fragment_engine None
      {| r_q := None; r_species := None; r_age_min := Some (-1)%Z; r_age_max := None;
         r_size := None; r_featured := None; r_limit := None |}
    = ValidationError errors
    ∧ errors ≠ [].
Proof.
  apply (proj1 (@negative_age_bounds_rejected fragment_engine None _)).
  exists (-1)%Z. split; [left; reflexivity | reflexivity].
Defined.

(** ** The free-text parameter [q] *)




(** ** The response projector *)

Lemma animal_document_no_identity (a : Animal.t) :
  animal_document a !! "id" = None ∧ animal_document a !! "_id" = None.
Proof. unfold animal_document. split; by simplify_map_eq. Qed.

(** C7.  [to_public] maps [None] to [None]; on a document with a store
    identity it sets [id] to the text of the identity, removes [_id] and
    leaves every other field as it is; a validated [Animal], stored and
    projected, is exactly [id] plus its own fields, without [_id]. *)
Theorem to_public_exposes_identity `{!Conversions} :
  to_public None = None
  ∧ (∀ (d : document) (v : value),
       d !! "_id" = Some v →
       ∃ d', to_public (Some d) = Some d'
             ∧ d' !! "id" = Some (VStr (py_str (Some v)))
             ∧ d' !! "_id" = None
             ∧ ∀ k, k ≠ "id" → k ≠ "_id" → d' !! k = d !! k)
  ∧ (∀ (body : json) (a : Animal.t) (oid : string),
       validate_animal body = Valid a →
       to_public (Some (stored_animal oid a))
       = Some (<["id" := VStr oid]> (animal_document a))
       ∧ animal_document a !! "id" = None
       ∧ (<["id" := VStr oid]> (animal_document a)) !! "_id" = None
       ∧ dom (<["id" := VStr oid]> (animal_document a))
         = ({["id"]} ∪ dom (animal_document a) : gset string)).
Proof.
  split; [reflexivity|]. split.
  - intros d v Hid. unfold to_public.
    destruct (decide (d = ∅)) as [-> | _]; [rewrite lookup_empty in Hid; discriminate|].
    eexists. split; [reflexivity|]. rewrite Hid. split; [|split].
    + rewrite lookup_delete_ne by done. apply lookup_insert_eq.
    + apply lookup_delete_eq.
    + intros k Hk1 Hk2.
      rewrite lookup_delete_ne by congruence.
      rewrite lookup_insert_ne by congruence. reflexivity.
  - intros body a oid _.
    destruct (animal_document_no_identity a) as [Hid Hid'].
    split; [|split; [exact Hid|split]].
    + unfold to_public, stored_animal.
      destruct (decide (<["_id" := VOid oid]> (animal_document a) = ∅)) as [Hempty | _];
        [exfalso; revert Hempty; apply insert_non_empty|].
      rewrite lookup_insert_eq. simpl. apply (f_equal Some).
      apply map_eq. intros k.
      destruct (decide (k = "_id")) as [-> | Hk].
      * rewrite lookup_delete_eq, lookup_insert_ne by done. symmetry. exact Hid'.
      * rewrite lookup_delete_ne by congruence.
        destruct (decide (k = "id")) as [-> | Hk'].
        -- rewrite !lookup_insert_eq. reflexivity.
        -- rewrite !lookup_insert_ne by congruence. reflexivity.
    + rewrite lookup_insert_ne by done. exact Hid'.
    + apply dom_insert_L.
Qed.

(** A witness for C7: Luna as validated from her JSON body, stored under
    an identity and projected. *)
Lemma to_public_exposes_identity_witness :
  @validate_animal strict_conversions luna_body = Valid luna_record
  ∧ to_public (Some (stored_animal "0000000000000000000000a1" luna_record))
    = Some (<["id" := VStr "0000000000000000000000a1"]> (animal_document luna_record)).
Proof.
  assert (H : @validate_animal strict_conversions luna_body = Valid luna_record)
    by (vm_compute; reflexivity).
  split; [exact H|].
  destruct (@to_public_exposes_identity strict_conversions) as (_ & _ & Hanimal).
  exact (proj1 (Hanimal luna_body luna_record "0000000000000000000000a1" H)).
Defined.

(** ** Validation of request bodies *)

Lemma sound_invalid {A} (v : validation A) (errors : list violation) :
  sound v → v = Invalid errors → errors ≠ [].
Proof. intros Hs -> ->. exact Hs. Qed.

Lemma errors_of_vap {A B} (f : validation (A → B)) (x : validation A) :
  errors_of (f <&> x) = (errors_of f ++ errors_of x)%list.
Proof. destruct f, x; simpl; rewrite ?app_nil_r; reflexivity. Qed.

Lemma vap_sound {A B} (f : validation (A → B)) (x : validation A) :
  sound f → sound x → sound (f <&> x).
Proof.
  destruct f as [g | [|e1 l1]], x as [a | [|e2 l2]]; simpl; auto.
Qed.

(** A violation of one field is a violation of the whole body. *)
Lemma vap_invalid_r {A B} (f : validation (A → B)) (x : validation A)
    (errors : list violation) :
  x = Invalid errors → f <&> x = Invalid (errors_of f ++ errors).
Proof. intros ->. destruct f; reflexivity. Qed.

Lemma vap_invalid_l {A B} (f : validation (A → B)) (x : validation A)
    (errors : list violation) :
  f = Invalid errors → f <&> x = Invalid (errors ++ errors_of x).
Proof. intros ->. destruct x; simpl; rewrite ?app_nil_r; reflexivity. Qed.

Lemma converted_sound {A} (k : string) (x : A + string) : sound (converted k x).
Proof. destruct x; exact I. Qed.

Lemma and_then_sound {A B} (v : validation A) (f : A → validation B) :
  sound v → (∀ a, sound (f a)) → sound (and_then v f).
Proof. destruct v as [a|errors]; simpl; auto. Qed.

Lemma and_then_valid {A B} (v : validation A) (f : A → validation B) (b : B) :
  and_then v f = Valid b → ∃ a, v = Valid a ∧ f a = Valid b.
Proof. destruct v as [a|errors]; simpl; [eauto | discriminate]. Qed.

Section Readers.
Context `{!Conversions}.

Lemma as_int_sound k v : sound (as_int k v).
Proof. destruct v; simpl; auto using converted_sound. Qed.

Lemma as_float_sound k v : sound (as_float k v).
Proof.
  destruct v; simpl; auto using converted_sound.
  destruct (finite _); exact I.
Qed.

Lemma as_bool_sound k v : sound (as_bool k v).
Proof. destruct v; simpl; auto using converted_sound. Qed.

Lemma as_email_sound k v : sound (as_email k v).
Proof. destruct v; simpl; auto. destruct (email_address _); exact I. Qed.

Lemma between_sound lo hi k n : sound (between lo hi k n).
Proof. unfold between. destruct (n <? lo)%Z, (hi <? n)%Z; exact I. Qed.

Lemma greater_than_zero_sound k f : sound (greater_than_zero k f).
Proof. unfold greater_than_zero. destruct (float_lt _ _); exact I. Qed.

Ltac reader_sound :=
  intros; unfold sound, missing, wrong;
  repeat (case_match; simplify_eq); auto.

Lemma req_str_sound fields k : sound (req_str fields k).
Proof. unfold req_str. reader_sound. Qed.

Lemma opt_str_sound fields k : sound (opt_str fields k).
Proof. unfold opt_str. reader_sound. Qed.

Lemma req_literal_sound allowed fields k : sound (req_literal allowed fields k).
Proof. unfold req_literal. reader_sound. Qed.

Lemma opt_literal_sound allowed fields k : sound (opt_literal allowed fields k).
Proof. unfold opt_literal. reader_sound. Qed.

Lemma str_list_default_sound fields k : sound (str_list_default fields k).
Proof. unfold str_list_default. reader_sound. Qed.

Lemma req_email_sound fields k : sound (req_email fields k).
Proof. unfold req_email. destruct (fields !! k); [apply as_email_sound | exact I]. Qed.

Lemma opt_email_sound fields k : sound (opt_email fields k).
Proof.
  unfold opt_email. destruct (fields !! k) as [v|]; [|exact I].
  destruct v; try exact I; apply and_then_sound; auto using as_email_sound; intros; exact I.
Qed.

Lemma req_float_gt0_sound fields k : sound (req_float_gt0 fields k).
Proof.
  unfold req_float_gt0. destruct (fields !! k); [|exact I].
  apply and_then_sound; auto using as_float_sound, greater_than_zero_sound.
Qed.

Lemma req_int_between_sound lo hi fields k : sound (req_int_between lo hi fields k).
Proof.
  unfold req_int_between. destruct (fields !! k); [|exact I].
  apply and_then_sound; auto using as_int_sound, between_sound.
Qed.

Lemma bool_default_sound dflt fields k : sound (bool_default dflt fields k).
Proof. unfold bool_default. destruct (fields !! k); [apply as_bool_sound | exact I]. Qed.

Lemma opt_bool_sound fields k : sound (opt_bool fields k).
Proof.
  unfold opt_bool. destruct (fields !! k) as [v|]; [|exact I].
  destruct v; try exact I; apply and_then_sound; auto using as_bool_sound; intros; exact I.
Qed.

Lemma with_fields_sound {A} (body : json) (k : gmap string json → validation A) :
  (∀ fields, sound (k fields)) → sound (with_fields body k).
Proof. intros Hk. destruct body; simpl; auto. Qed.

Lemma validate_application_sound (body : json) : sound (validate_application body).
Proof.
  apply with_fields_sound. intros fields.
  repeat apply vap_sound;
    auto using req_str_sound, opt_str_sound, req_email_sound.
  exact I.
Qed.

Lemma validate_volunteer_sound (body : json) : sound (validate_volunteer body).
Proof.
  apply with_fields_sound. intros fields.
  repeat apply vap_sound;
    auto using req_str_sound, opt_str_sound, req_email_sound, str_list_default_sound.
  exact I.
Qed.

Lemma validate_donation_sound (body : json) : sound (validate_donation body).
Proof.
  apply with_fields_sound. intros fields.
  repeat apply vap_sound;
    auto using req_str_sound, opt_str_sound, opt_email_sound, req_float_gt0_sound.
  exact I.
Qed.

End Readers.

(** *** The violations of a body, field by field *)

Lemma reported {A} (v : validation A) (x : violation) :
  x ∈ errors_of v → ∃ errors, v = Invalid errors ∧ x ∈ errors.
Proof.
  destruct v as [a | errors]; simpl; intros Hx.
  - apply elem_of_nil in Hx. contradiction.
  - exists errors. auto.
Qed.

Section Models.
Context `{!Conversions}.

Lemma errors_of_validate_animal (fields : gmap string json) :
  errors_of (validate_animal (JObj fields))
  = (errors_of (req_str fields "name")
     ++ errors_of (req_literal species_values fields "species")
     ++ errors_of (opt_str fields "breed")
     ++ errors_of (req_int_between 0 40 fields "age")
     ++ errors_of (req_literal size_values fields "size")
     ++ errors_of (opt_literal gender_values fields "gender")
     ++ errors_of (opt_str fields "description")
     ++ errors_of (str_list_default fields "photos")
     ++ errors_of (bool_default false fields "featured")
     ++ errors_of (opt_str fields "location")
     ++ errors_of (opt_bool fields "good_with_kids")
     ++ errors_of (opt_bool fields "good_with_pets"))%list.
Proof.
  unfold validate_animal, with_fields. rewrite !errors_of_vap. simpl.
  rewrite <- !app_assoc. reflexivity.
Qed.

Lemma errors_of_validate_application (fields : gmap string json) :
  errors_of (validate_application (JObj fields))
  = (errors_of (req_str fields "animal_id")
     ++ errors_of (req_str fields "full_name")
     ++ errors_of (req_email fields "email")
     ++ errors_of (opt_str fields "phone")
     ++ errors_of (opt_str fields "message"))%list.
Proof.
  unfold validate_application, with_fields. rewrite !errors_of_vap. simpl.
  rewrite <- !app_assoc. reflexivity.
Qed.

Lemma errors_of_validate_volunteer (fields : gmap string json) :
  errors_of (validate_volunteer (JObj fields))
  = (errors_of (req_str fields "full_name")
     ++ errors_of (req_email fields "email")
     ++ errors_of (str_list_default fields "interests")
     ++ errors_of (opt_str fields "availability")
     ++ errors_of (opt_str fields "message"))%list.
Proof.
  unfold validate_volunteer, with_fields. rewrite !errors_of_vap. simpl.
  rewrite <- !app_assoc. reflexivity.
Qed.

Lemma errors_of_validate_donation (fields : gmap string json) :
  errors_of (validate_donation (JObj fields))
  = (errors_of (req_str fields "full_name")
     ++ errors_of (opt_email fields "email")
     ++ errors_of (req_float_gt0 fields "amount")
     ++ errors_of (opt_str fields "message"))%list.
Proof.
  unfold validate_donation, with_fields. rewrite !errors_of_vap. simpl.
  rewrite <- !app_assoc. reflexivity.
Qed.

End Models.

(** *** Violations that cannot be written as JSON *)

Lemma has_nonfinite_obj (fields : gmap string json) :
  has_nonfinite (JObj fields) = true
  ↔ ∃ k v, fields !! k = Some v ∧ has_nonfinite v = true.
Proof.
  simpl. induction fields as [|k v m Hk Hfold IH] using map_first_key_ind.
  - rewrite map_fold_empty. split; [discriminate|].
    intros (k & v & Hkv & _). rewrite lookup_empty in Hkv. discriminate.
  - rewrite map_fold_insert_first_key by assumption.
    rewrite orb_true_iff, IH. split.
    + intros [Hv | (k' & v' & Hkv & Hv)].
      * exists k, v. rewrite lookup_insert_eq. auto.
      * exists k', v'. rewrite lookup_insert_ne; [auto|]. intros ->. congruence.
    + intros (k' & v' & Hkv & Hv). destruct (decide (k = k')) as [<- | Hne].
      * rewrite lookup_insert_eq in Hkv. injection Hkv as <-. auto.
      * rewrite lookup_insert_ne in Hkv by done. right. eauto.
Qed.

(** A body without a float that is not finite reports none. *)
Lemma violation_input_finite (body : json) (v : violation) :
  has_nonfinite body = false → has_nonfinite (violation_input body v) = false.
Proof.
  intros Hbody. destruct v as [loc rule].
  destruct body as [| | | | | |fields]; try exact Hbody.
  unfold violation_input. destruct (String.eqb rule "missing"); [exact Hbody|].
  destruct (fields !! loc) as [x|] eqn:Hx; [|reflexivity]. simpl.
  destruct (has_nonfinite x) eqn:Hnf; [|reflexivity].
  rewrite <- Hbody. symmetry. apply has_nonfinite_obj. eauto.
Qed.

Lemma finite_body_serialisable (body : json) (errors : list violation) :
  has_nonfinite body = false → unserialisable body errors = false.
Proof.
  intros Hbody. unfold unserialisable.
  induction errors as [|v errors IH]; simpl; [reflexivity|].
  rewrite violation_input_finite by exact Hbody. exact IH.
Qed.

Lemma reported_nonfinite (body : json) (errors : list violation) (v : violation) :
  v ∈ errors → has_nonfinite (violation_input body v) = true →
  unserialisable body errors = true.
Proof.
  intros Hin Hv. unfold unserialisable. apply existsb_exists.
  exists v. split; [apply list_elem_of_In; exact Hin | exact Hv].
Qed.

(** The answer to a body that fails validation. *)
Lemma validation_failure_cases {A} (body : json) (errors : list violation) :
  (unserialisable body errors = false
   → validation_failure (A := A) body errors = ValidationError errors)
  ∧ (unserialisable body errors = true
     → validation_failure (A := A) body errors = ServerError internal_error)
  ∧ (has_nonfinite body = false → unserialisable body errors = false).
Proof.
  unfold validation_failure. split; [intros ->; reflexivity|].
  split; [intros ->; reflexivity | apply finite_body_serialisable].
Qed.

(** ** The amount of a donation *)

(** A float that is at most zero is not greater than zero. *)
Lemma float_le_zero_not_gt (f : spec_float) :
  float_le f float_zero = true → float_lt float_zero f = false.
Proof.
  unfold float_le, float_lt, float_zero, SFleb, SFltb, SFcompare.
  destruct f as [s | s | | s m e]; try destruct s; simpl; congruence.
Qed.

Lemma binary_round_negative (m : positive) (e : Z) :
  float_lt float_zero (binary_round 53 1024 true m e) = false.
Proof.
  unfold binary_round, binary_round_aux.
  destruct (shl_align _ _ _) as [mz ez].
  destruct (shr_fexp _ _ _ _ _) as [mrs' e'].
  destruct (shr_fexp _ _ _ _ _) as [mrs'' e''].
  destruct (shr_m mrs''); [reflexivity | | reflexivity].
  destruct (Z.leb _ _); reflexivity.
Qed.

(** The float of an integer that is at most zero is not greater than zero. *)
Lemma float_of_Z_nonpos (n : Z) :
  (n ≤ 0)%Z → float_lt float_zero (float_of_Z n) = false.
Proof.
  intros Hn. unfold float_of_Z, binary_normalize.
  destruct n as [| p | p]; [reflexivity | lia | apply binary_round_negative].
Qed.

Section Amount.
Context `{!Conversions}.

(** A violation of the amount is a violation of the donation. *)
Lemma donation_amount_violation (fields : gmap string json) (rule : string) :
  Violation "amount" rule ∈ errors_of (req_float_gt0 fields "amount") →
  ∃ errors,
    validate_donation (JObj fields) = Invalid errors
    ∧ Violation "amount" rule ∈ errors.
Proof.
  intros Hamount. apply reported. rewrite errors_of_validate_donation. set_solver.
Qed.

Lemma validate_donation_amount (body : json) (d : Donation.t) :
  validate_donation body = Valid d →
  float_lt float_zero (Donation.amount d) = true.
Proof.
  unfold validate_donation, with_fields. destruct body as [| | | | | |fields]; try discriminate.
  destruct (req_str fields "full_name") as [name|],
    (opt_email fields "email") as [email|],
    (req_float_gt0 fields "amount") as [amount|] eqn:Hamount,
    (opt_str fields "message") as [message|];
    simpl; try discriminate.
  intros [= <-]. simpl.
  unfold req_float_gt0 in Hamount. destruct (fields !! "amount"); [|discriminate].
  apply and_then_valid in Hamount as (f & _ & Hgt).
  unfold greater_than_zero in Hgt.
  destruct (float_lt float_zero f) eqn:Hf; [|discriminate].
  injection Hgt as <-. exact Hf.
Qed.

End Amount.

Lemma hex_text_nonempty (digits : nat) (n : N) (acc : string) :
  acc ≠ EmptyString → hex_text digits n acc ≠ EmptyString.
Proof.
  revert n acc. induction digits as [|k IH]; intros n acc Hacc; simpl; [exact Hacc|].
  apply IH. discriminate.
Qed.

Lemma oid_text_nonempty (n : N) : oid_text n ≠ EmptyString.
Proof.
  unfold oid_text.
  change (hex_text 24 n EmptyString)
    with (hex_text 23 (n / 16)%N (String (hex_digit (n mod 16)%N) EmptyString)).
  apply hex_text_nonempty. discriminate.
Qed.

(** ** The write routes *)

Section Writes.
Context `{!Conversions} {St : Type} `{!Store St}.

(** C9, as amended.  On each write route a body that fails validation
    never reaches the store: the store state is left as it was, whatever
    the store adapter, which is not called.  There is at least one
    violation, and the answer is the validation error with the violations,
    unless a value reported with them holds a float that is not finite, in
    which case the answer is a server error; a body without such a float
    is always answered with the validation error.  An application whose
    email the library does not read as an address fails in this way. *)
Theorem invalid_body_never_reaches_store
    (body : json) (st : St) (errors : list violation) :
  (validate_application body = Invalid errors →
     errors ≠ []
     ∧ snd (route_applications body st) = st
     ∧ (unserialisable body errors = false →
          fst (route_applications body st) = ValidationError errors)
     ∧ (unserialisable body errors = true →
          fst (route_applications body st) = ServerError internal_error))
  ∧ (validate_volunteer body = Invalid errors →
       errors ≠ []
       ∧ snd (route_volunteers body st) = st
       ∧ (unserialisable body errors = false →
            fst (route_volunteers body st) = ValidationError errors)
       ∧ (unserialisable body errors = true →
            fst (route_volunteers body st) = ServerError internal_error))
  ∧ (validate_donation body = Invalid errors →
       errors ≠ []
       ∧ snd (route_donations body st) = st
       ∧ (unserialisable body errors = false →
            fst (route_donations body st) = ValidationError errors)
       ∧ (unserialisable body errors = true →
            fst (route_donations body st) = ServerError internal_error))
  ∧ (has_nonfinite body = false → unserialisable body errors = false)
  ∧ (email_address "not-an-email" = None →
       route_applications application_not_an_email st
       = (ValidationError [Violation "email" "value_error"], st)).
Proof.
  destruct (validation_failure_cases (A := Ack.t) body errors) as (H422 & H500 & Hfinite).
  split; [|split; [|split; [|split]]].
  - intros Hv. split; [exact (sound_invalid _ _ (validate_application_sound body) Hv)|].
    unfold route_applications. rewrite Hv. simpl. auto.
  - intros Hv. split; [exact (sound_invalid _ _ (validate_volunteer_sound body) Hv)|].
    unfold route_volunteers. rewrite Hv. simpl. auto.
  - intros Hv. split; [exact (sound_invalid _ _ (validate_donation_sound body) Hv)|].
    unfold route_donations. rewrite Hv. simpl. auto.
  - exact Hfinite.
  - intros Hemail.
    assert (Hv : validate_application application_not_an_email
                 = Invalid [Violation "email" "value_error"]).
    { unfold validate_application, application_not_an_email, with_fields,
        req_str, req_email, opt_str.
      simplify_map_eq. reflexivity. }
    unfold route_applications. rewrite Hv. reflexivity.
Qed.

End Writes.

(** In the reference store an insert into a configured store returns a
    non-empty identity. *)
Lemma mem_create_document_id (name : string) (data : payload) (db : mem_db) :
  ∃ did st', mem_create_document name data (Some db) = (Inserted did, st')
             ∧ did ≠ EmptyString.
Proof.
  eexists _, _. split; [reflexivity|]. apply oid_text_nonempty.
Qed.

(** C8, as amended.  A donation whose amount is an integer that is at most
    zero, or a float that is not greater than zero (a zero, a negative
    number, the negative infinity into which the decoder turns [-1e400],
    or a NaN), fails validation with a violation of the amount, and so
    does an amount of another type that the library reads as such a
    float.  A body
    that fails validation leaves the store as it was; the answer is the
    validation error with the violations, unless a value reported with
    them holds a float that is not finite, as the amount itself when it is
    the negative infinity or a NaN: the answer is then a server error.  For
    every valid body the amount is greater than zero, and the answer
    follows the insert: when it returns an identity, that identity under
    [id] with the status pledged; when it raises, a server error with the
    cause.  In the reference store an insert into a configured store
    succeeds, and the identity in the answer is not empty. *)
Theorem donation_amount_must_be_positive
    `{!Conversions} {St : Type} `{!Store St} (fields : gmap string json) (st : St) :
  (∀ n, fields !! "amount" = Some (JInt n) → (n ≤ 0)%Z →
     ∃ errors rule,
       validate_donation (JObj fields) = Invalid errors
       ∧ Violation "amount" rule ∈ errors
       ∧ (finite (float_of_Z n) = true → rule = "greater_than"))
  ∧ (∀ f, fields !! "amount" = Some (JFloat f) → float_lt float_zero f = false →
       ∃ errors,
         validate_donation (JObj fields) = Invalid errors
         ∧ Violation "amount" "greater_than" ∈ errors
         ∧ (finite f = false → unserialisable (JObj fields) errors = true))
  ∧ (∀ f, float_le f float_zero = true → float_lt float_zero f = false)
  ∧ (∀ v f, fields !! "amount" = Some v → as_float "amount" v = Valid f →
       float_lt float_zero f = false →
       ∃ errors,
         validate_donation (JObj fields) = Invalid errors
         ∧ Violation "amount" "greater_than" ∈ errors)
  ∧ (∀ errors, validate_donation (JObj fields) = Invalid errors →
       snd (route_donations (JObj fields) st) = st
       ∧ (unserialisable (JObj fields) errors = false →
            fst (route_donations (JObj fields) st) = ValidationError errors)
       ∧ (unserialisable (JObj fields) errors = true →
            fst (route_donations (JObj fields) st) = ServerError internal_error)
       ∧ (has_nonfinite (JObj fields) = false →
            unserialisable (JObj fields) errors = false))
  ∧ (∀ d, validate_donation (JObj fields) = Valid d →
       float_lt float_zero (Donation.amount d) = true
       ∧ route_donations (JObj fields) st
         = match create_document "donation" (PDonation d) st with
           | (Inserted did, st') => (Ok (Ack.Build did "pledged"), st')
           | (Raised e, st') => (ServerError e, st')
           end)
  ∧ (∀ d db, validate_donation (JObj fields) = Valid d →
       ∃ did st',
         @route_donations _ _ mem_create_document (JObj fields) (Some db)
         = (Ok (Ack.Build did "pledged"), st')
         ∧ did ≠ EmptyString).
Proof.
  split; [|split; [|split; [|split; [|split; [|split]]]]].
  - intros n Hn Hle.
    assert (∃ rule, errors_of (req_float_gt0 fields "amount") = [Violation "amount" rule]
                    ∧ (finite (float_of_Z n) = true → rule = "greater_than"))
      as (rule & Hr & Hrule).
    { unfold req_float_gt0. rewrite Hn. simpl.
      destruct (finite (float_of_Z n)); simpl.
      - unfold greater_than_zero. rewrite (float_of_Z_nonpos n Hle). eauto.
      - eexists. split; [reflexivity | discriminate]. }
    destruct (donation_amount_violation fields rule) as (errors & Hv & Hin).
    { rewrite Hr. set_solver. }
    eauto.
  - intros f Hf Hnot.
    destruct (donation_amount_violation fields "greater_than") as (errors & Hv & Hin).
    { unfold req_float_gt0. rewrite Hf. simpl. unfold greater_than_zero. rewrite Hnot.
      set_solver. }
    exists errors. split; [exact Hv|]. split; [exact Hin|].
    intros Hinf. apply (reported_nonfinite _ _ _ Hin).
    unfold violation_input. simpl. rewrite Hf. simpl. rewrite Hinf. reflexivity.
  - apply float_le_zero_not_gt.
  - intros v f Hv Hread Hnot. apply donation_amount_violation.
    unfold req_float_gt0. rewrite Hv, Hread. simpl. unfold greater_than_zero. rewrite Hnot.
    set_solver.
  - intros errors Hv.
    destruct (validation_failure_cases (A := Ack.t) (JObj fields) errors)
      as (H422 & H500 & Hfinite).
    unfold route_donations. rewrite Hv. simpl. auto.
  - intros d Hv. split; [exact (validate_donation_amount _ _ Hv)|].
    unfold route_donations. rewrite Hv. reflexivity.
  - intros d db Hv.
    destruct (mem_create_document_id "donation" (PDonation d) db)
      as (did & st' & Hins & Hdid).
    exists did, st'. split; [|exact Hdid].
    unfold route_donations, submit_donation. rewrite Hv.
    unfold create_document. rewrite Hins. reflexivity.
Qed.

(** A witness for C8: the donation of 25.5 against a configured reference
    store is answered with a non-empty identity and the status pledged. *)
Lemma donation_amount_must_be_positive_witness :
  @route_donations strict_conversions _ mem_create_document donation_25_5
    (Some (MemDb [] 255))
  = (Ok (Ack.Build "0000000000000000000000ff" "pledged"),
     Some (MemDb [("donation", "0000000000000000000000ff",
                   PDonation (Donation.Build "Ann Lee" None float_25_5 None))] 256)).
Proof.
  assert (Hv : @validate_donation strict_conversions donation_25_5
               = Valid (Donation.Build "Ann Lee" None float_25_5 None))
    by (vm_compute; reflexivity).
  destruct (@donation_amount_must_be_positive strict_conversions _ mem_create_document
              (<["full_name" := JStr "Ann Lee"]> (<["amount" := JFloat float_25_5]> ∅))
              (Some (MemDb [] 255))) as (_ & _ & _ & _ & _ & Hvalid & _).
  destruct (Hvalid _ Hv) as [_ Hroute].
  etransitivity; [exact Hroute|]. vm_compute. reflexivity.
Defined.

(** Counterexample to C8 as stated, whatever the library converts.  The
    donation of 25.5 is valid, and with the store unconfigured the answer
    is a server error, without an identity and without the status pledged.
    The donation of [-1e400], a negative amount, fails validation, and the
    answer is a server error, not a client error. *)
Lemma valid_donation_store_unconfigured :
  (∀ C : Conversions,
     @validate_donation C donation_25_5
     = Valid (Donation.Build "Ann Lee" None float_25_5 None)
     ∧ @route_donations C _ mem_create_document donation_25_5 None
       = (ServerError "Database not available", None))
  ∧ (∀ C : Conversions,
       @validate_donation C donation_minus_1e400
       = Invalid [Violation "amount" "greater_than"]
       ∧ @route_donations C _ mem_create_document donation_minus_1e400 (Some (MemDb [] 0))
         = (ServerError internal_error, Some (MemDb [] 0))).
Proof. split; intros C; split; vm_compute; reflexivity. Qed.

(** A witness for C9: the application whose email is not-an-email, against
    the reference store. *)
Lemma invalid_body_never_reaches_store_witness :
  @route_applications strict_conversions _ mem_create_document application_not_an_email
    (Some (MemDb [] 0))
  = (ValidationError [Violation "email" "value_error"], Some (MemDb [] 0)).
Proof.
  destruct (@invalid_body_never_reaches_store strict_conversions _ mem_create_document
              application_not_an_email (Some (MemDb [] 0))
              [Violation "email" "value_error"]) as (_ & _ & _ & _ & Hexample).
  apply Hexample. reflexivity.
Defined.

(** Counterexample to C9 as stated, whatever the library converts: the
    donation of 25.5 whose message is the number [1e400] fails validation,
    the message not being a text; the store is not touched, and the answer
    is a server error, not a client error with the violations. *)
Lemma unserialisable_violation_is_a_server_error :
  (∀ C : Conversions,
     @validate_donation C donation_message_1e400
     = Invalid [Violation "message" "string_type"])
  ∧ (∀ C : Conversions,
       @route_donations C _ mem_create_document donation_message_1e400 (Some (MemDb [] 0))
       = (ServerError internal_error, Some (MemDb [] 0))).
Proof. split; intros C; vm_compute; reflexivity. Qed.

(** * Further properties of the code *)

(** ** [to_public] on every dictionary *)

(** X1.  A falsy dictionary is returned as it is.  On any other dictionary
    [to_public] sets [id] to the text of what [_id] holds, and changes the
    keys only by adding [id] and removing [_id]; every other field keeps
    its value. *)
Theorem to_public_key_set (d : document) :
  d ≠ ∅ →
  ∃ d', to_public (Some d) = Some d'
        ∧ dom d' = (({["id"]} ∪ dom d) ∖ {["_id"]} : gset string)
        ∧ d' !! "id" = Some (VStr (py_str (d !! "_id")))
        ∧ (∀ k, k ≠ "id" → k ≠ "_id" → d' !! k = d !! k)
        ∧ to_public (Some ∅) = Some ∅.
Proof.
  intros Hd. unfold to_public at 1.
  destruct (decide (d = ∅)) as [? | _]; [contradiction|].
  eexists. split; [reflexivity|]. split; [|split; [|split]].
  - rewrite dom_delete_L, dom_insert_L. reflexivity.
  - rewrite lookup_delete_ne by done. apply lookup_insert_eq.
  - intros k Hk1 Hk2.
    rewrite lookup_delete_ne by congruence.
    rewrite lookup_insert_ne by congruence. reflexivity.
  - reflexivity.
Qed.

Lemma to_public_key_set_witness :
  ∃ d', to_public (Some (in_store "0000000000000000000000a1" seed_luna)) = Some d'
        ∧ dom d' = (({["id"]} ∪ dom (in_store "0000000000000000000000a1" seed_luna))
                    ∖ {["_id"]} : gset string)
        ∧ d' !! "id"
          = Some (VStr (py_str (in_store "0000000000000000000000a1" seed_luna !! "_id")))
        ∧ (∀ k, k ≠ "id" → k ≠ "_id" →
             d' !! k = in_store "0000000000000000000000a1" seed_luna !! k)
        ∧ to_public (Some ∅) = Some ∅.
Proof.
  apply (to_public_key_set (in_store "0000000000000000000000a1" seed_luna)).
  apply insert_non_empty.
Defined.

(** X2.  A dictionary that is not empty and has no [_id] gets the text
    None as its [id], and is otherwise unchanged. *)
Theorem to_public_without_identity (d : document) :
  d ≠ ∅ →
  d !! "_id" = None →
  to_public (Some d) = Some (<["id" := VStr "None"]> d).
Proof.
  intros Hd Hid. unfold to_public.
  destruct (decide (d = ∅)) as [? | _]; [contradiction|].
  rewrite Hid. simpl. rewrite delete_id; [reflexivity|].
  rewrite lookup_insert_ne by done. exact Hid.
Qed.

Lemma to_public_without_identity_witness :
  to_public (Some seed_luna) = Some (<["id" := VStr "None"]> seed_luna).
Proof.
  apply (to_public_without_identity seed_luna).
  - apply insert_non_empty.
  - vm_compute. reflexivity.
Defined.

(** X3.  [to_public] is not idempotent: projecting a projected document
    again finds no [_id] and overwrites [id] with the text None. *)
Theorem to_public_twice_loses_identity (d : document) (v : value) :
  d !! "_id" = Some v →
  ∃ d1, to_public (Some d) = Some d1
        ∧ d1 !! "id" = Some (VStr (py_str (Some v)))
        ∧ to_public (Some d1) = Some (<["id" := VStr "None"]> (delete "_id" d)).
Proof.
  intros Hid. unfold to_public at 1.
  destruct (decide (d = ∅)) as [-> | _]; [rewrite lookup_empty in Hid; discriminate|].
  eexists. split; [reflexivity|]. rewrite Hid. split.
  - rewrite lookup_delete_ne by done. apply lookup_insert_eq.
  - unfold to_public.
    destruct (decide (delete "_id" (<["id" := VStr (py_str (Some v))]> d) = ∅))
      as [Hempty | _].
    + exfalso.
      assert (Hl : delete "_id" (<["id" := VStr (py_str (Some v))]> d) !! "id"
                   = Some (VStr (py_str (Some v)))).
      { rewrite lookup_delete_ne by done. apply lookup_insert_eq. }
      rewrite Hempty, lookup_empty in Hl. discriminate.
    + rewrite lookup_delete_eq. simpl. apply (f_equal Some).
      apply map_eq. intros k.
      destruct (decide (k = "_id")) as [-> | Hk].
      * rewrite lookup_delete_eq, lookup_insert_ne, lookup_delete_eq by done.
        reflexivity.
      * rewrite lookup_delete_ne by congruence.
        destruct (decide (k = "id")) as [-> | Hk'].
        -- rewrite !lookup_insert_eq. reflexivity.
        -- rewrite !lookup_insert_ne by congruence.
           rewrite !lookup_delete_ne by congruence.
           rewrite lookup_insert_ne by congruence. reflexivity.
Qed.

Lemma to_public_twice_loses_identity_witness :
  ∃ d1, to_public (Some (in_store "0000000000000000000000a1" seed_luna)) = Some d1
        ∧ d1 !! "id" = Some (VStr (py_str (Some (VOid "0000000000000000000000a1"))))
        ∧ to_public (Some d1)
          = Some (<["id" := VStr "None"]>
                    (delete "_id" (in_store "0000000000000000000000a1" seed_luna))).
Proof.
  apply (to_public_twice_loses_identity
           (in_store "0000000000000000000000a1" seed_luna)
           (VOid "0000000000000000000000a1")).
  apply lookup_insert_eq.
Defined.

(** ** The entries of the built filter *)

Section FilterShape.
Context `{!RegexEngine}.

(** X4.  The filter of [list_animals] holds the entry [$or] iff [q] is a
    non-empty text, the entries [species] and [size] iff those parameters
    are non-empty texts, and no entry under any key other than [$or],
    [species], [size], [featured] and [age]. *)
Theorem filter_entries
    (q species : option string) (age_min age_max : option Z)
    (size : option string) (featured : option bool) :
  let filt := list_animals_filter q species age_min age_max size featured in
  filt !! "$or"
  = (λ q, COr [ {["name" := CRegex q "i"]};
                {["breed" := CRegex q "i"]};
                {["description" := CRegex q "i"]} ]) <$> truthy q
  ∧ filt !! "species" = (λ s, CField (CEq (VStr s))) <$> truthy species
  ∧ filt !! "size" = (λ s, CField (CEq (VStr s))) <$> truthy size
  ∧ (∀ k, k ∉ ["$or"; "species"; "size"; "featured"; "age"] → filt !! k = None).
Proof.
  cbv zeta. unfold list_animals_filter. cbv zeta.
  repeat apply conj.
  - destruct (truthy q), (truthy species), (truthy size), featured, age_min, age_max;
      case_decide; by simplify_map_eq.
  - destruct (truthy q), (truthy species), (truthy size), featured, age_min, age_max;
      case_decide; by simplify_map_eq.
  - destruct (truthy q), (truthy species), (truthy size), featured, age_min, age_max;
      case_decide; by simplify_map_eq.
  - intros k Hk.
    assert (k ≠ "$or" ∧ k ≠ "species" ∧ k ≠ "size" ∧ k ≠ "featured" ∧ k ≠ "age")
      as (H1 & H2 & H3 & H4 & H5).
    { repeat apply conj; intros ->; apply Hk; set_solver. }
    destruct (truthy q), (truthy species), (truthy size), featured, age_min, age_max;
      case_decide; rewrite ?lookup_insert_ne by congruence; apply lookup_empty.
Qed.

(** X5.  The filter never holds an empty age clause: there is an entry
    under [age] iff a bound is supplied, and then its operator document
    holds [$gte] exactly for [age_min], [$lte] exactly for [age_max], and
    nothing else. *)
Theorem age_clause_never_empty
    (q species : option string) (age_min age_max : option Z)
    (size : option string) (featured : option bool) :
  let filt := list_animals_filter q species age_min age_max size featured in
  (filt !! "age" = None ↔ age_min = None ∧ age_max = None)
  ∧ (∀ c, filt !! "age" = Some c →
       ∃ ops, c = CField (CRange ops)
              ∧ ops ≠ ∅
              ∧ ops !! "$gte" = age_min
              ∧ ops !! "$lte" = age_max
              ∧ ∀ op, op ≠ "$gte" → op ≠ "$lte" → ops !! op = None).
Proof.
  cbv zeta. unfold list_animals_filter. cbv zeta. split.
  - destruct (truthy q), (truthy species), (truthy size), featured,
      age_min as [lo|], age_max as [hi|]; case_decide as He;
      try (exfalso; revert He; apply insert_non_empty);
      try (exfalso; apply He; reflexivity);
      simplify_map_eq; split; try done; intros [? ?]; done.
  - intros c.
    destruct (truthy q), (truthy species), (truthy size), featured,
      age_min as [lo|], age_max as [hi|]; case_decide as He;
      try (exfalso; revert He; apply insert_non_empty);
      try (exfalso; apply He; reflexivity);
      try (rewrite ?lookup_insert_ne, lookup_empty by done; discriminate);
      rewrite lookup_insert_eq; intros [= <-];
      (eexists; split; [reflexivity|]; repeat apply conj;
       [ apply insert_non_empty
       | by simplify_map_eq
       | by simplify_map_eq
       | intros op ? ?; rewrite ?lookup_insert_ne by congruence; apply lookup_empty ]).
Qed.

End FilterShape.

(** ** How the parameters shape the selection *)

Section Selection.
Context `{!RegexEngine}.

Lemma when_supplied_weaker {A} (o' o : option A) (P : A → bool) :
  weaker o' o → when_supplied o P = true → when_supplied o' P = true.
Proof. intros [-> | ->]; [reflexivity | auto]. Qed.

Lemma truthy_weaker (o' o : option string) :
  weaker o' o → weaker (truthy o') (truthy o).
Proof. intros [-> | ->]; [left; reflexivity | right; reflexivity]. Qed.

(** X6.  Dropping parameters can only widen the selection: a document
    selected under some parameters is selected under any choice that keeps
    or drops each of them. *)
Theorem dropping_parameters_widens
    (q q' species species' : option string) (age_min age_min' age_max age_max' : option Z)
    (size size' : option string) (featured featured' : option bool) (d : document) :
  weaker q' q → weaker species' species →
  weaker age_min' age_min → weaker age_max' age_max →
  weaker size' size → weaker featured' featured →
  matches (list_animals_filter q species age_min age_max size featured) d = true →
  matches (list_animals_filter q' species' age_min' age_max' size' featured') d = true.
Proof.
  intros Hq Hsp Hmin Hmax Hsz Hft. rewrite !filter_decomposition.
  unfold supplied_constraints. rewrite !andb_true_iff.
  intros (((((H1 & H2) & H3) & H4) & H5) & H6).
  repeat apply conj;
    eauto using when_supplied_weaker, truthy_weaker.
Qed.

Lemma crossed_bounds_no_match
    (q species : option string) (lo hi : Z)
    (size : option string) (featured : option bool) (d : document) :
  (hi < lo)%Z →
  matches (list_animals_filter q species (Some lo) (Some hi) size featured) d = false.
Proof.
  intros Hcross. rewrite filter_decomposition. unfold supplied_constraints. simpl.
  unfold age_min_constraint, age_max_constraint.
  destruct (d !! "age") as [[| | n | | |]|]; rewrite ?andb_false_r; try reflexivity.
  destruct (lo <=? n)%Z eqn:Hlo; rewrite ?andb_false_r; [|reflexivity].
  assert (Hhi : (n <=? hi)%Z = false) by lia.
  rewrite Hhi, andb_false_r. reflexivity.
Qed.

Lemma find_nothing (coll : list document) (filt : filter_doc) :
  (∀ d, matches filt d = false) → find coll filt = [].
Proof.
  intros Hnone. unfold find. induction coll as [|d coll IH]; simpl; [reflexivity|].
  rewrite Hnone. exact IH.
Qed.

Lemma cursor_limit_nil (limit : Z) : cursor_limit limit [] = [].
Proof. unfold cursor_limit. destruct (limit =? 0)%Z; [reflexivity | apply take_nil]. Qed.

(** X7.  Crossed bounds select nothing: with [age_max] below [age_min] no
    document is selected, whatever its fields and the other parameters, so
    that a list [list_animals] returns is empty.  Such a request is not
    refused: with both bounds at least 0 and below 2^63, a limit in 1..100
    and a [q] the store accepts, [GET /animals] answers a configured store
    with the empty list. *)
Theorem crossed_age_bounds_select_nothing
    (q species : option string) (lo hi : Z)
    (size : option string) (featured : option bool) (d : document) :
  (hi < lo)%Z →
  matches (list_animals_filter q species (Some lo) (Some hi) size featured) d = false
  ∧ (∀ db limit rows,
       list_animals (Some db) q species (Some lo) (Some hi) size featured limit
       = Returned rows →
       rows = [])
  ∧ (∀ db limit,
       (0 ≤ hi)%Z → (lo < 2 ^ 63)%Z → pattern_accepted q = true →
       (∀ n, limit = Some n → (1 ≤ n ≤ 100)%Z) →
       route_animals (Some db)
         {| r_q := q; r_species := species; r_age_min := Some lo; r_age_max := Some hi;
            r_size := size; r_featured := featured; r_limit := limit |}
       = Ok []).
Proof.
  intros Hcross. split; [apply crossed_bounds_no_match; exact Hcross|].
  assert (Hrows : ∀ db limit,
    map (λ d, to_public (Some d))
      (cursor_limit limit
         (find (collection db "animal")
            (list_animals_filter q species (Some lo) (Some hi) size featured))) = []).
  { intros db limit. rewrite find_nothing, cursor_limit_nil; [reflexivity|].
    intros d'. apply crossed_bounds_no_match. exact Hcross. }
  split.
  - intros db limit rows Hret. apply list_animals_returned in Hret as ->. apply Hrows.
  - intros db limit Hhi Hlo Hq Hlimit.
    rewrite route_animals_valid.
    + cbn [r_q r_species r_age_min r_age_max r_size r_featured r_limit].
      rewrite list_animals_returns, Hrows; [reflexivity | | exact Hq].
      unfold bounds_encodable, int64. simpl. lia.
    + apply animals_request_errors_nil. simpl.
      repeat apply conj; [intros n [= <-]; lia | intros n [= <-]; lia | exact Hlimit].
Qed.

(** X8.  As soon as a bound is supplied, a document whose [age] is missing
    or is not an integer is not selected. *)
Theorem age_bound_needs_integer_age
    (q species : option string) (age_min age_max : option Z)
    (size : option string) (featured : option bool) (d : document) :
  age_min ≠ None ∨ age_max ≠ None →
  (∀ n, d !! "age" ≠ Some (VInt n)) →
  matches (list_animals_filter q species age_min age_max size featured) d = false.
Proof.
  intros Hsome Hage. rewrite filter_decomposition. unfold supplied_constraints.
  unfold age_min_constraint, age_max_constraint.
  destruct (d !! "age") as [[| | n | | |]|] eqn:Hd;
    try (exfalso; apply (Hage n); reflexivity);
    destruct age_min, age_max; simpl; rewrite ?andb_false_r; try reflexivity;
    destruct Hsome; congruence.
Qed.

End Selection.

Lemma dropping_parameters_widens_witness :
  @matches fragment_engine
    (list_animals_filter None (Some "cat") None None None None) seed_milo = true.
Proof.
  apply (@dropping_parameters_widens fragment_engine
           (Some "milo") None (Some "cat") (Some "cat")
           (Some 1%Z) None (Some 5%Z) None
           (Some "medium") None (Some true) None seed_milo);
    try (left; reflexivity); try (right; reflexivity).
  vm_compute. reflexivity.
Defined.

Lemma crossed_age_bounds_select_nothing_witness :
  @matches fragment_engine
    (list_animals_filter None None (Some 5%Z) (Some 2%Z) None None) seed_luna = false
  ∧ @route_animals fragment_engine (Some example_db)
      {| r_q := None; r_species := None; r_age_min := Some 5%Z; r_age_max := Some 2%Z;
         r_size := None; r_featured := None; r_limit := None |}
    = Ok [].
Proof.
  assert (Hcross : (2 < 5)%Z) by lia.
  destruct (@crossed_age_bounds_select_nothing fragment_engine
              None None 5%Z 2%Z None None seed_luna Hcross) as (Hnone & _ & Hroute).
  split; [exact Hnone|].
  apply Hroute; [lia | lia | reflexivity | discriminate].
Defined.

Lemma age_bound_needs_integer_age_witness :
  @matches fragment_engine
    (list_animals_filter None None (Some 0%Z) None None None) seed_story_luna = false.
Proof.
  apply (@age_bound_needs_integer_age fragment_engine
           None None (Some 0%Z) None None None seed_story_luna).
  - left. discriminate.
  - intros n. vm_compute. discriminate.
Defined.

(** ** Case in the free-text parameter *)

Lemma existsb_pointwise {A} (f g : A → bool) (l : list A) :
  (∀ x, f x = g x) → existsb f l = existsb g l.
Proof. intros Hfg. induction l as [|x l IH]; simpl; [reflexivity|]. rewrite Hfg, IH. reflexivity. Qed.

Lemma lower_str_empty (q : string) : lower_str q = EmptyString → q = EmptyString.
Proof. destruct q; [reflexivity | discriminate]. Qed.

(** X9.  The case of [q] does not matter: two texts without metacharacter
    that differ only in the case of their letters select the same
    documents, whatever the other parameters. *)
Theorem q_case_is_ignored
    (species : option string) (s s' : string) (age_min age_max : option Z)
    (size : option string) (featured : option bool) (d : document) :
  plain s = true → plain s' = true →
  lower_str s = lower_str s' →
  @matches fragment_engine
    (list_animals_filter (Some s) species age_min age_max size featured) d
  = @matches fragment_engine
      (list_animals_filter (Some s') species age_min age_max size featured) d.
Proof.
  intros Hs Hs' Hlow. rewrite !filter_decomposition.
  destruct s as [|c s].
  { symmetry in Hlow. apply lower_str_empty in Hlow as ->. reflexivity. }
  destruct s' as [|c' s']; [discriminate|].
  unfold supplied_constraints. simpl truthy. cbn [when_supplied].
  unfold q_constraint.
  assert (Hsearch : ∀ t, @regex_search fragment_engine "i" (String c s) t
                         = @regex_search fragment_engine "i" (String c' s') t).
  { intros t. unfold regex_search, fragment_engine.
    change (mentions "i"%char "i") with true.
    rewrite !search_from_plain by assumption. rewrite Hlow. reflexivity. }
  rewrite !(existsb_pointwise _ _ _ Hsearch). reflexivity.
Qed.

Lemma q_case_is_ignored_witness :
  @matches fragment_engine
    (list_animals_filter (Some "LUNA") None None None None None) seed_luna
  = @matches fragment_engine
      (list_animals_filter (Some "luna") None None None None None) seed_luna.
Proof.
  apply (q_case_is_ignored None "LUNA" "luna" None None None None seed_luna);
    reflexivity.
Defined.

(** ** What the read handlers return *)

Lemma cursor_limit_take (limit : Z) (docs : list document) :
  (1 ≤ limit)%Z → cursor_limit limit docs = take (Z.to_nat limit) docs.
Proof.
  intros Hl. unfold cursor_limit.
  destruct (limit =? 0)%Z eqn:H0; [lia|].
  rewrite Zabs2Nat.abs_nat_nonneg by lia. reflexivity.
Qed.

Lemma elem_of_map_to_public (r : option document) (docs : list document) :
  r ∈ map (λ d, to_public (Some d)) docs ↔ ∃ d, d ∈ docs ∧ r = to_public (Some d).
Proof.
  rewrite list_elem_of_In, in_map_iff. split.
  - intros (d & <- & Hin). exists d. split; [apply list_elem_of_In; exact Hin | reflexivity].
  - intros (d & Hin & ->). exists d. split; [reflexivity | apply list_elem_of_In; exact Hin].
Qed.

Section ReadHandlers.
Context `{!RegexEngine}.

(** X10.  With a configured store and a limit from 1 up, [list_animals]
    ends in one of two ways.  When the driver cannot encode an age bound
    that is supplied, or the store does not accept [q] as a pattern, an
    exception leaves the handler.  Otherwise it returns at most [limit]
    records; each is the projection of a document of the collection
    [animal] that satisfies every supplied constraint; and when no more
    than [limit] documents satisfy them, all of them are returned, in the
    order of the store. *)
Theorem list_animals_results
    (db : database) (q species : option string) (age_min age_max : option Z)
    (size : option string) (featured : option bool) (limit : Z) :
  (1 ≤ limit < 2 ^ 63)%Z →
  let filt := list_animals_filter q species age_min age_max size featured in
  let call := list_animals (Some db) q species age_min age_max size featured limit in
  (bounds_encodable age_min age_max && pattern_accepted q = false →
     ∃ exception, call = Thrown exception)
  ∧ (bounds_encodable age_min age_max && pattern_accepted q = true →
     ∃ result,
       call = Returned result
       ∧ (length result ≤ Z.to_nat limit)%nat
       ∧ (∀ r, r ∈ result →
            ∃ d, d ∈ collection db "animal"
                 ∧ supplied_constraints (truthy q) (truthy species) age_min age_max
                     (truthy size) featured d = true
                 ∧ r = to_public (Some d))
       ∧ ((length (find (collection db "animal") filt) ≤ Z.to_nat limit)%nat →
          result = map (λ d, to_public (Some d)) (find (collection db "animal") filt))).
Proof.
  intros Hl. cbv zeta. split; [apply list_animals_throws|].
  intros Hruns. apply andb_true_iff in Hruns as [Hb Hq].
  rewrite list_animals_returns by assumption.
  rewrite cursor_limit_take by lia.
  eexists. split; [reflexivity|]. split; [|split].
  - rewrite length_map, length_take. lia.
  - intros r Hr. apply elem_of_map_to_public in Hr as (d & Hd & ->).
    apply subseteq_take in Hd. apply find_spec in Hd as [Hin Hm].
    exists d. split; [exact Hin|]. split; [|reflexivity].
    rewrite <- filter_decomposition. exact Hm.
  - intros Hlen. rewrite take_ge by exact Hlen. reflexivity.
Qed.

(** X11.  Whatever the store and the request, an answer of [GET /animals]
    that is not an error holds at most 100 records, at most the limit that
    was sent, and at most 24 when none was sent. *)
Theorem route_animals_at_most_limit
    (db : option database) (r : animals_request) (body : list (option document)) :
  route_animals db r = Ok body →
  (length body ≤ 100)%nat
  ∧ (∀ n, r_limit r = Some n → (length body ≤ Z.to_nat n)%nat)
  ∧ (r_limit r = None → (length body ≤ 24)%nat).
Proof.
  intros Hok. apply route_animals_ok in Hok as [Hnil Hcall].
  apply animals_request_errors_nil in Hnil as (_ & _ & Hlim).
  assert (Hlen : ∀ n, (1 ≤ n)%Z →
    list_animals db (r_q r) (r_species r) (r_age_min r) (r_age_max r)
      (r_size r) (r_featured r) n = Returned body →
    (length body ≤ Z.to_nat n)%nat).
  { intros n Hn Hret. destruct db as [db|].
    - apply list_animals_returned in Hret as ->.
      rewrite cursor_limit_take by exact Hn.
      rewrite length_map, length_take. lia.
    - assert (body = []) as -> by (unfold list_animals in Hret; congruence).
      simpl. lia. }
  destruct (r_limit r) as [n|] eqn:Hr; simpl in Hcall.
  - specialize (Hlim n eq_refl). specialize (Hlen n ltac:(lia) Hcall).
    split; [lia|]. split; [intros m [= <-]; exact Hlen | discriminate].
  - specialize (Hlen 24%Z ltac:(lia) Hcall).
    split; [lia|]. split; [discriminate | intros _; lia].
Qed.

(** X12.  [GET /animals/featured] is [GET /animals?featured=true&limit=8]:
    [list_animals] returns on these arguments, and what it returns is the
    list [featured_animals] returns, for every store; the list holds
    at most 8 records, each the projection of a document of the collection
    whose [featured] is true. *)
Theorem featured_is_filtered_listing (db : option database) :
  list_animals db None None None None None (Some true) 8 = Returned (featured_animals db)
  ∧ (length (featured_animals db) ≤ 8)%nat
  ∧ (∀ r dbs, db = Some dbs → r ∈ featured_animals db →
       ∃ d, d ∈ collection dbs "animal"
            ∧ d !! "featured" = Some (VBool true)
            ∧ r = to_public (Some d)).
Proof.
  assert (Hsame : list_animals db None None None None None (Some true) 8
                  = Returned (featured_animals db)).
  { destruct db as [dbs|]; [|reflexivity].
    rewrite list_animals_returns by reflexivity.
    unfold featured_animals, list_animals_filter. cbv zeta. simpl.
    rewrite decide_True by reflexivity. rewrite insert_empty. reflexivity. }
  split; [exact Hsame|]. split.
  - destruct db as [dbs|]; [|simpl; lia].
    unfold featured_animals. rewrite cursor_limit_take by lia.
    rewrite length_map, length_take. lia.
  - intros r dbs -> Hr. unfold featured_animals in Hr.
    rewrite cursor_limit_take in Hr by lia.
    apply elem_of_map_to_public in Hr as (d & Hd & ->).
    apply subseteq_take in Hd. apply find_spec in Hd as [Hin Hm].
    exists d. split; [exact Hin|]. split; [|reflexivity].
    rewrite <- insert_empty in Hm. rewrite matches_insert in Hm by apply lookup_empty.
    apply andb_true_iff in Hm as [Hm _]. simpl in Hm. unfold store_eq in Hm.
    destruct (d !! "featured") as [[| b | | | |]|]; simpl in Hm;
      try (apply bool_decide_eq_true in Hm; congruence); discriminate.
Qed.


(** X14.  When every document of the collection [animal] holds an [_id],
    every record of a list [list_animals] returns carries that identity as
    text under [id], has no [_id], and agrees with the stored document on
    every other field. *)
Theorem listed_animals_expose_id
    (db : database) (q species : option string) (age_min age_max : option Z)
    (size : option string) (featured : option bool) (limit : Z)
    (rows : list (option document)) (r : option document) :
  Forall (λ d, is_Some (d !! "_id")) (collection db "animal") →
  list_animals (Some db) q species age_min age_max size featured limit = Returned rows →
  r ∈ rows →
  ∃ d d', d ∈ collection db "animal"
          ∧ r = Some d'
          ∧ d' !! "id" = Some (VStr (py_str (d !! "_id")))
          ∧ d' !! "_id" = None
          ∧ ∀ k, k ≠ "id" → k ≠ "_id" → d' !! k = d !! k.
Proof.
  intros Hall Hrows Hr. apply list_animals_returned in Hrows as ->.
  apply elem_of_map_to_public in Hr as (d & Hd & ->).
  assert (Hin : d ∈ collection db "animal").
  { unfold cursor_limit in Hd. destruct (limit =? 0)%Z.
    - apply find_spec in Hd as [Hin _]. exact Hin.
    - apply subseteq_take in Hd. apply find_spec in Hd as [Hin _]. exact Hin. }
  rewrite Forall_forall in Hall. destruct (Hall d Hin) as [v Hv].
  exists d. unfold to_public.
  destruct (decide (d = ∅)) as [-> | _]; [rewrite lookup_empty in Hv; discriminate|].
  eexists. split; [exact Hin|]. split; [reflexivity|]. split; [|split].
  - rewrite lookup_delete_ne by done. apply lookup_insert_eq.
  - apply lookup_delete_eq.
  - intros k Hk1 Hk2.
    rewrite lookup_delete_ne by congruence.
    rewrite lookup_insert_ne by congruence. reflexivity.
Qed.

End ReadHandlers.

Lemma list_animals_results_witness :
  ∃ result,
    @list_animals fragment_engine (Some example_db)
      (Some "tabby") (Some "cat") (Some 1%Z) (Some 5%Z) None None 24
    = Returned result
    ∧ (length result ≤ Z.to_nat 24)%nat.
Proof.
  assert (Hlimit : (1 ≤ 24 < 2 ^ 63)%Z) by lia.
  destruct (@list_animals_results fragment_engine example_db
              (Some "tabby") (Some "cat") (Some 1%Z) (Some 5%Z) None None 24 Hlimit)
    as [_ Hruns].
  destruct (Hruns eq_refl) as (result & Hcall & Hlen & _).
  exists result. split; [exact Hcall | exact Hlen].
Defined.

Lemma route_animals_at_most_limit_witness :
  (length (map (λ d, to_public (Some d)) (collection example_db "animal")) ≤ 100)%nat.
Proof.
  apply (@route_animals_at_most_limit fragment_engine (Some example_db) no_parameters
           (map (λ d, to_public (Some d)) (collection example_db "animal"))).
  vm_compute. reflexivity.
Defined.


Lemma listed_animals_expose_id_witness :
  ∃ d d', d ∈ collection example_db "animal"
          ∧ to_public (Some (in_store (oid_text 1) seed_milo)) = Some d'
          ∧ d' !! "id" = Some (VStr (py_str (d !! "_id")))
          ∧ d' !! "_id" = None
          ∧ ∀ k, k ≠ "id" → k ≠ "_id" → d' !! k = d !! k.
Proof.
  apply (@listed_animals_expose_id fragment_engine example_db
           None (Some "cat") None None None None 24
           [to_public (Some (in_store (oid_text 1) seed_milo))]
           (to_public (Some (in_store (oid_text 1) seed_milo)))).
  - apply (bool_decide_unpack _). vm_compute. exact I.
  - vm_compute. reflexivity.
  - apply (bool_decide_unpack _). vm_compute. exact I.
Defined.

(** ** What a validated record guarantees *)

Lemma vap_valid {A B} (f : validation (A → B)) (x : validation A) (b : B) :
  f <&> x = Valid b → ∃ g a, f = Valid g ∧ x = Valid a ∧ b = g a.
Proof.
  destruct f as [g|], x as [a|]; simpl; try discriminate.
  intros [= <-]. exists g, a. auto.
Qed.

Lemma req_literal_valid allowed fields k s :
  req_literal allowed fields k = Valid s → s ∈ allowed.
Proof.
  unfold req_literal, missing, wrong. intros H.
  repeat (case_match; simplify_eq).
  match goal with Hb : bool_decide _ = true |- _ => apply bool_decide_eq_true in Hb; exact Hb end.
Qed.

Lemma opt_literal_valid allowed fields k s :
  opt_literal allowed fields k = Valid (Some s) → s ∈ allowed.
Proof.
  unfold opt_literal, missing, wrong. intros H.
  repeat (case_match; simplify_eq).
  match goal with Hb : bool_decide _ = true |- _ => apply bool_decide_eq_true in Hb; exact Hb end.
Qed.

Lemma between_valid lo hi k n m : between lo hi k n = Valid m → m = n ∧ (lo ≤ n ≤ hi)%Z.
Proof.
  unfold between, wrong.
  destruct (Z.ltb_spec n lo); [discriminate|].
  destruct (Z.ltb_spec hi n); [discriminate|].
  intros [= <-]. split; [reflexivity | lia].
Qed.

Lemma with_fields_valid {A} (body : json) (k : gmap string json → validation A) (a : A) :
  with_fields body k = Valid a → ∃ fields, body = JObj fields ∧ k fields = Valid a.
Proof. destruct body; simpl; try discriminate. intros H. eauto. Qed.

Ltac split_valid H :=
  repeat
    (let g := fresh "g" in
     let x := fresh "x" in
     let Hx := fresh "Hx" in
     apply vap_valid in H as (g & x & H & Hx & ->)).

Section Guarantees.
Context `{!Conversions}.

(** The integer of a valid field is the integer that was sent, or what the
    library made of the value that was sent, and it lies within the
    bounds. *)
Lemma req_int_between_valid lo hi fields k n :
  req_int_between lo hi fields k = Valid n →
  (lo ≤ n ≤ hi)%Z ∧ ∃ v, fields !! k = Some v ∧ as_int k v = Valid n.
Proof.
  unfold req_int_between. destruct (fields !! k) as [v|]; [|discriminate].
  intros Hv. apply and_then_valid in Hv as (m & Hm & Hb).
  apply between_valid in Hb as [-> Hb]. eauto.
Qed.

(** X16.  Every validated [Animal] satisfies the bounds and enumerations
    of its declaration, in whatever JSON type its fields were sent: the
    age is the integer that was sent, or the integer into which the
    library converted the value that was sent, and lies in 0..40; the
    species and the size are among the declared literals, and so is the
    gender when there is one.  A value the library converts to an integer
    outside 0..40 is rejected as an age. *)
Theorem validated_animal_invariants (body : json) (a : Animal.t) :
  validate_animal body = Valid a →
  (0 ≤ Animal.age a ≤ 40)%Z
  ∧ (∃ fields v, body = JObj fields ∧ fields !! "age" = Some v
                 ∧ (v = JInt (Animal.age a) ∨ lax_int v = inl (Animal.age a)))
  ∧ Animal.species a ∈ species_values
  ∧ Animal.size a ∈ size_values
  ∧ (∀ g, Animal.gender a = Some g → g ∈ gender_values)
  ∧ (∀ fields v n, fields !! "age" = Some v → lax_int v = inl n →
       (∀ m, v ≠ JInt m) → (n < 0 ∨ 40 < n)%Z →
       ∃ errors rule, validate_animal (JObj fields) = Invalid errors
                      ∧ Violation "age" rule ∈ errors).
Proof.
  intros Hv. unfold validate_animal in Hv.
  apply with_fields_valid in Hv as (fields & -> & Hv).
  split_valid Hv. injection Hv as <-. simpl.
  match goal with
  | Hage : req_int_between _ _ _ _ = Valid _ |- _ =>
      apply req_int_between_valid in Hage as (Hbounds & v & Hsent & Hread)
  end.
  split; [exact Hbounds|].
  split.
  { exists fields, v. split; [reflexivity|]. split; [exact Hsent|].
    unfold as_int in Hread.
    destruct v;
      try (right; revert Hread; unfold converted, wrong;
           destruct (lax_int _); [intros [= ->]; reflexivity | discriminate]).
    left. congruence. }
  split; [eapply req_literal_valid; eassumption|].
  split; [eapply req_literal_valid; eassumption|].
  split; [intros g ->; eapply opt_literal_valid; eassumption|].
  clear. intros fields v n Hsent Hconv Hnot Hout.
  assert (∃ rule, errors_of (req_int_between 0 40 fields "age") = [Violation "age" rule])
    as [rule Hr].
  { unfold req_int_between. rewrite Hsent.
    assert (as_int "age" v = Valid n) as ->.
    { unfold as_int. destruct v; rewrite ?Hconv; try reflexivity.
      exfalso. eapply Hnot. reflexivity. }
    simpl. unfold between.
    destruct (Z.ltb_spec n 0); [eexists; reflexivity|].
    destruct (Z.ltb_spec 40 n); [eexists; reflexivity|].
    exfalso. destruct Hout; lia. }
  destruct (reported (validate_animal (JObj fields)) (Violation "age" rule))
    as (errors & Herr & Hin).
  { rewrite errors_of_validate_animal, Hr. clear Hout. set_solver. }
  eauto.
Qed.

(** X17.  The defaults of [Animal]: for a valid body, [photos] that is not
    sent is the empty list, [featured] that is not sent is false, and an
    optional field that is not sent is [None]; in particular an unknown
    [good_with_kids] or [good_with_pets] is never read as false. *)
Theorem animal_defaults (fields : gmap string json) (a : Animal.t) :
  validate_animal (JObj fields) = Valid a →
  (fields !! "photos" = None → Animal.photos a = [])
  ∧ (fields !! "featured" = None → Animal.featured a = false)
  ∧ (fields !! "breed" = None → Animal.breed a = None)
  ∧ (fields !! "gender" = None → Animal.gender a = None)
  ∧ (fields !! "description" = None → Animal.description a = None)
  ∧ (fields !! "location" = None → Animal.location a = None)
  ∧ (fields !! "good_with_kids" = None → Animal.good_with_kids a = None)
  ∧ (fields !! "good_with_pets" = None → Animal.good_with_pets a = None).
Proof.
  intros Hv. unfold validate_animal, with_fields in Hv.
  split_valid Hv. injection Hv as <-. simpl.
  repeat apply conj; intros Hk;
    match goal with
    | H : _ fields ?k = Valid ?x |- ?x = _ =>
        match type of Hk with
        | fields !! k = None =>
            unfold str_list_default, bool_default, opt_str, opt_literal, opt_bool in H;
            rewrite Hk in H; congruence
        end
    end.
Qed.

End Guarantees.

Lemma validated_animal_invariants_witness :
  (0 ≤ Animal.age luna_record ≤ 40)%Z
  ∧ Animal.species luna_record ∈ species_values
  ∧ Animal.size luna_record ∈ size_values.
Proof.
  assert (Hv : @validate_animal strict_conversions luna_body = Valid luna_record)
    by (vm_compute; reflexivity).
  destruct (@validated_animal_invariants strict_conversions luna_body luna_record Hv)
    as (Hage & _ & Hspecies & Hsize & _).
  auto.
Defined.

Lemma animal_defaults_witness :
  Animal.photos luna_record = []
  ∧ Animal.good_with_kids luna_record = None
  ∧ Animal.good_with_pets luna_record = None.
Proof.
  assert (Hv : @validate_animal strict_conversions luna_body = Valid luna_record)
    by (vm_compute; reflexivity).
  destruct (@animal_defaults strict_conversions _ luna_record Hv)
    as (Hphotos & _ & _ & _ & _ & _ & Hkids & Hpets).
  split; [apply Hphotos; vm_compute; reflexivity|].
  split; [apply Hkids | apply Hpets]; vm_compute; reflexivity.
Defined.

(** ** What validation rejects and what it ignores *)

Section Rejections.
Context `{!Conversions}.

(** X19.  An [Animal] outside its declaration is rejected: an integer age
    below 0 or above 40, a species or a size that is a text outside the
    declared literals, each fails validation with a violation naming the
    field. *)
Theorem animal_out_of_schema_is_rejected (fields : gmap string json) :
  (∀ n, fields !! "age" = Some (JInt n) → (n < 0 ∨ 40 < n)%Z →
     ∃ errors rule, validate_animal (JObj fields) = Invalid errors
                    ∧ Violation "age" rule ∈ errors)
  ∧ (∀ s, fields !! "species" = Some (JStr s) → s ∉ species_values →
       ∃ errors, validate_animal (JObj fields) = Invalid errors
                 ∧ Violation "species" "literal_error" ∈ errors)
  ∧ (∀ s, fields !! "size" = Some (JStr s) → s ∉ size_values →
       ∃ errors, validate_animal (JObj fields) = Invalid errors
                 ∧ Violation "size" "literal_error" ∈ errors).
Proof.
  repeat apply conj.
  - intros n Hn Hout.
    assert (∃ rule, errors_of (req_int_between 0 40 fields "age") = [Violation "age" rule])
      as [rule Hr].
    { unfold req_int_between. rewrite Hn. simpl. unfold between.
      destruct (Z.ltb_spec n 0); [eexists; reflexivity|].
      destruct (Z.ltb_spec 40 n); [eexists; reflexivity|].
      exfalso. destruct Hout; lia. }
    destruct (reported (validate_animal (JObj fields)) (Violation "age" rule))
      as (errors & Hv & Hin).
    { rewrite errors_of_validate_animal, Hr. clear Hout. set_solver. }
    eauto.
  - intros s Hs Hout. apply reported.
    rewrite errors_of_validate_animal. unfold req_literal at 1. rewrite Hs.
    rewrite bool_decide_eq_false_2 by exact Hout. set_solver.
  - intros s Hs Hout. apply reported.
    rewrite errors_of_validate_animal. unfold req_literal at 2. rewrite Hs.
    rewrite bool_decide_eq_false_2 by exact Hout. set_solver.
Qed.

Ltac reader_missing Hk :=
  unfold req_str, req_literal, req_int_between, req_email, req_float_gt0;
  rewrite Hk; unfold missing; simpl; set_solver.

(** X20.  A required field that is not sent is reported as missing, for
    each required field of each model: [name], [species], [age], [size] of
    an animal; [animal_id], [full_name], [email] of an application;
    [full_name], [email] of a volunteer; [full_name], [amount] of a
    donation. *)
Theorem missing_required_field_is_reported (fields : gmap string json) (k : string) :
  fields !! k = None →
  (k ∈ ["name"; "species"; "age"; "size"] →
     ∃ errors, validate_animal (JObj fields) = Invalid errors
               ∧ Violation k "missing" ∈ errors)
  ∧ (k ∈ ["animal_id"; "full_name"; "email"] →
       ∃ errors, validate_application (JObj fields) = Invalid errors
                 ∧ Violation k "missing" ∈ errors)
  ∧ (k ∈ ["full_name"; "email"] →
       ∃ errors, validate_volunteer (JObj fields) = Invalid errors
                 ∧ Violation k "missing" ∈ errors)
  ∧ (k ∈ ["full_name"; "amount"] →
       ∃ errors, validate_donation (JObj fields) = Invalid errors
                 ∧ Violation k "missing" ∈ errors).
Proof.
  intros Hk. repeat apply conj; intros Hin; apply reported.
  - rewrite errors_of_validate_animal.
    set_unfold in Hin. destruct Hin as [-> | [-> | [-> | [-> | []]]]]; reader_missing Hk.
  - rewrite errors_of_validate_application.
    set_unfold in Hin. destruct Hin as [-> | [-> | [-> | []]]]; reader_missing Hk.
  - rewrite errors_of_validate_volunteer.
    set_unfold in Hin. destruct Hin as [-> | [-> | []]]; reader_missing Hk.
  - rewrite errors_of_validate_donation.
    set_unfold in Hin. destruct Hin as [-> | [-> | []]]; reader_missing Hk.
Qed.

End Rejections.

Lemma missing_required_field_is_reported_witness :
  ∃ errors,
    @validate_donation strict_conversions (JObj (<["full_name" := JStr "Ann Lee"]> ∅))
    = Invalid errors
    ∧ Violation "amount" "missing" ∈ errors.
Proof.
  apply (@missing_required_field_is_reported strict_conversions
           (<["full_name" := JStr "Ann Lee"]> ∅) "amount").
  - vm_compute. reflexivity.
  - set_solver.
Defined.

Section Ignored.
Context `{!Conversions}.

(** X21.  Fields a model does not declare are ignored: adding one to a
    body, whatever its value, changes nothing in the result of the
    validation. *)
Theorem undeclared_fields_are_ignored
    (fields : gmap string json) (k : string) (v : json) :
  (k ∉ ["name"; "species"; "breed"; "age"; "size"; "gender"; "description";
        "photos"; "featured"; "location"; "good_with_kids"; "good_with_pets"] →
   validate_animal (JObj (<[k := v]> fields)) = validate_animal (JObj fields))
  ∧ (k ∉ ["animal_id"; "full_name"; "email"; "phone"; "message"] →
     validate_application (JObj (<[k := v]> fields)) = validate_application (JObj fields))
  ∧ (k ∉ ["full_name"; "email"; "interests"; "availability"; "message"] →
     validate_volunteer (JObj (<[k := v]> fields)) = validate_volunteer (JObj fields))
  ∧ (k ∉ ["full_name"; "email"; "amount"; "message"] →
     validate_donation (JObj (<[k := v]> fields)) = validate_donation (JObj fields)).
Proof.
  repeat apply conj; intros Hk.
  - unfold validate_animal, with_fields, req_str, req_literal, opt_str, req_int_between,
      opt_literal, str_list_default, bool_default, opt_bool.
    rewrite !lookup_insert_ne by (intros ->; apply Hk; set_solver). reflexivity.
  - unfold validate_application, with_fields, req_str, req_email, opt_str.
    rewrite !lookup_insert_ne by (intros ->; apply Hk; set_solver). reflexivity.
  - unfold validate_volunteer, with_fields, req_str, req_email, opt_str, str_list_default.
    rewrite !lookup_insert_ne by (intros ->; apply Hk; set_solver). reflexivity.
  - unfold validate_donation, with_fields, req_str, opt_email, opt_str, req_float_gt0.
    rewrite !lookup_insert_ne by (intros ->; apply Hk; set_solver). reflexivity.
Qed.

End Ignored.

(** ** Seeding *)

Lemma assign_ids_new_head (next : N) (d : document) (docs : list document) :
  d !! "_id" = None →
  assign_ids next (d :: docs) = in_store (oid_text next) d :: assign_ids (N.succ next) docs.
Proof. intros Hd. simpl. rewrite Hd. reflexivity. Qed.

Lemma seed_data_skips {St : Type} `{!Driver St} (st : St) (n m : nat) :
  count_documents "animal" st = Counted (Datatypes.S n) →
  count_documents "story" st = Counted (Datatypes.S m) →
  seed_data (Some st) = Some st.
Proof. intros Ha Hs. unfold seed_data. rewrite Ha. simpl. rewrite Hs. reflexivity. Qed.

Lemma strip_assigned_ids (next : N) (docs : list document) :
  Forall (λ d, d !! "_id" = None) docs →
  map (delete "_id") (assign_ids next docs) = docs.
Proof.
  intros Hall. revert next. induction Hall as [|d docs Hd _ IH]; intros next; [reflexivity|].
  rewrite assign_ids_new_head by exact Hd. simpl. unfold in_store.
  rewrite delete_insert_id by exact Hd. rewrite IH. reflexivity.
Qed.

Lemma assigned_ids_present (next : N) (docs : list document) :
  Forall (λ d, is_Some (d !! "_id")) (assign_ids next docs).
Proof.
  revert next. induction docs as [|d docs IH]; intros next; simpl; [constructor|].
  destruct (d !! "_id") as [v|] eqn:Hd; constructor; auto;
    first [ rewrite Hd; eauto | unfold in_store; rewrite lookup_insert_eq; eauto ].
Qed.

Lemma seed_examples_have_no_id :
  Forall (λ d, d !! "_id" = None) seed_animals
  ∧ Forall (λ d, d !! "_id" = None) seed_stories.
Proof. split; repeat constructor; vm_compute; reflexivity. Qed.

Lemma collection_insert (db : database) (name : string) (docs : list document) :
  collection (<[name := docs]> db) name = docs.
Proof. unfold collection. rewrite lookup_insert_eq. reflexivity. Qed.

Lemma collection_insert_ne (db : database) (name other : string) (docs : list document) :
  name ≠ other → collection (<[name := docs]> db) other = collection db other.
Proof. intros Hne. unfold collection. rewrite lookup_insert_ne by exact Hne. reflexivity. Qed.

Lemma assign_ids_seed_animals (next : N) :
  assign_ids next seed_animals
  = [ in_store (oid_text next) seed_luna;
      in_store (oid_text (N.succ next)) seed_milo;
      in_store (oid_text (N.succ (N.succ next))) seed_poppy ].
Proof.
  unfold seed_animals.
  rewrite !assign_ids_new_head by (vm_compute; reflexivity). reflexivity.
Qed.

Lemma assign_ids_seed_stories (next : N) :
  assign_ids next seed_stories
  = [ in_store (oid_text next) seed_story_luna;
      in_store (oid_text (N.succ next)) seed_story_milo ].
Proof.
  unfold seed_stories.
  rewrite !assign_ids_new_head by (vm_compute; reflexivity). reflexivity.
Qed.

(** X22.  [seed_data] fills only empty collections and never fails: with
    no store nothing happens; when both collections count at least one
    document the store is left as it is; when counting the animals raises,
    or inserting them raises, the function ends there, with the store as
    that step left it and the stories neither counted nor inserted. *)
Theorem seed_data_fills_only_empty_collections {St : Type} `{!Driver St} (st : St) :
  seed_data (None : option St) = None
  ∧ (∀ n m, count_documents "animal" st = Counted (Datatypes.S n) →
            count_documents "story" st = Counted (Datatypes.S m) →
            seed_data (Some st) = Some st)
  ∧ (∀ e, count_documents "animal" st = CountRaised e → seed_data (Some st) = Some st)
  ∧ (∀ e st1, count_documents "animal" st = Counted 0 →
              insert_many "animal" seed_animals st = (WriteRaised e, st1) →
              seed_data (Some st) = Some st1).
Proof.
  split; [reflexivity|]. split; [|split].
  - intros n m. apply seed_data_skips.
  - intros e Ha. unfold seed_data. rewrite Ha. reflexivity.
  - intros e st1 Ha Hi. unfold seed_data. rewrite Ha. simpl. rewrite Hi. reflexivity.
Qed.

Lemma insert_seed_animals (s : mongo) :
  collections (snd (@insert_many mongo pure_driver "animal" seed_animals s))
  = <["animal" := (collection (collections s) "animal"
                   ++ assign_ids (issued s) seed_animals)%list]> (collections s).
Proof. reflexivity. Qed.

Lemma insert_seed_stories (s : mongo) :
  collections (snd (@insert_many mongo pure_driver "story" seed_stories s))
  = <["story" := (collection (collections s) "story"
                  ++ assign_ids (issued s) seed_stories)%list]> (collections s).
Proof. reflexivity. Qed.

Lemma seed_data_pure (s : mongo) :
  @seed_data mongo pure_driver (Some s) = Some (after_stories (after_animals s)).
Proof.
  unfold seed_data, after_stories, after_animals.
  cbn [count_documents insert_many pure_driver seed_animals seed_stories].
  destruct (collection (collections s) "animal") as [|d docs] eqn:Ha;
    cbn [length Nat.eqb collections issued fst snd].
  - match goal with
    | |- context [collection ?db "story"] =>
        destruct (collection db "story"); reflexivity
    end.
  - destruct (collection (collections s) "story"); reflexivity.
Qed.

Lemma after_animals_collections (s : mongo) :
  collection (collections (after_animals s)) "animal"
  = match collection (collections s) "animal" with
    | [] => assign_ids (issued s) seed_animals
    | docs => docs
    end
  ∧ ∀ name, name ≠ "animal" →
            collection (collections (after_animals s)) name = collection (collections s) name.
Proof.
  unfold after_animals. destruct (collection (collections s) "animal") eqn:Ha.
  - rewrite insert_seed_animals. split.
    + rewrite collection_insert, Ha. reflexivity.
    + intros name Hne. apply collection_insert_ne. congruence.
  - split; [exact Ha | reflexivity].
Qed.

Lemma after_stories_collections (s : mongo) :
  collection (collections (after_stories s)) "story"
  = match collection (collections s) "story" with
    | [] => assign_ids (issued s) seed_stories
    | docs => docs
    end
  ∧ ∀ name, name ≠ "story" →
            collection (collections (after_stories s)) name = collection (collections s) name.
Proof.
  unfold after_stories. destruct (collection (collections s) "story") eqn:Ha.
  - rewrite insert_seed_stories. split.
    + rewrite collection_insert, Ha. reflexivity.
    + intros name Hne. apply collection_insert_ne. congruence.
  - split; [exact Ha | reflexivity].
Qed.

(** The two collections of a store after [seed_data], with a driver that
    does not fail. *)
Lemma seeded_collections (s : mongo) :
  collection (collections (after_stories (after_animals s))) "animal"
  = match collection (collections s) "animal" with
    | [] => assign_ids (issued s) seed_animals
    | docs => docs
    end
  ∧ collection (collections (after_stories (after_animals s))) "story"
    = match collection (collections s) "story" with
      | [] => assign_ids (issued (after_animals s)) seed_stories
      | docs => docs
      end
  ∧ ∀ name, name ≠ "animal" → name ≠ "story" →
            collection (collections (after_stories (after_animals s))) name
            = collection (collections s) name.
Proof.
  destruct (after_animals_collections s) as [Ha Hao].
  destruct (after_stories_collections (after_animals s)) as [Hs Hso].
  repeat apply conj.
  - rewrite Hso by discriminate. exact Ha.
  - rewrite Hs, Hao by discriminate. reflexivity.
  - intros name H1 H2. rewrite Hso, Hao by congruence. reflexivity.
Qed.

(** X23.  With a store that does not fail, [seed_data] leaves, for every
    store, both collections non-empty; a collection that held a document is
    unchanged; an empty one receives exactly the examples, in order, each
    with an identity; and no other collection is touched. *)
Theorem seed_data_frame (s : mongo) :
  ∃ s', @seed_data mongo pure_driver (Some s) = Some s'
        ∧ collection (collections s') "animal" ≠ []
        ∧ collection (collections s') "story" ≠ []
        ∧ (collection (collections s) "animal" ≠ [] →
           collection (collections s') "animal" = collection (collections s) "animal")
        ∧ (collection (collections s) "story" ≠ [] →
           collection (collections s') "story" = collection (collections s) "story")
        ∧ (collection (collections s) "animal" = [] →
           map (delete "_id") (collection (collections s') "animal") = seed_animals
           ∧ Forall (λ d, is_Some (d !! "_id")) (collection (collections s') "animal"))
        ∧ (collection (collections s) "story" = [] →
           map (delete "_id") (collection (collections s') "story") = seed_stories
           ∧ Forall (λ d, is_Some (d !! "_id")) (collection (collections s') "story"))
        ∧ (∀ name, name ≠ "animal" → name ≠ "story" →
                   collection (collections s') name = collection (collections s) name).
Proof.
  exists (after_stories (after_animals s)). split; [apply seed_data_pure|].
  destruct seed_examples_have_no_id as [Hno_a Hno_s].
  destruct (seeded_collections s) as (Ha & Hs & Hother).
  rewrite Ha, Hs. repeat apply conj.
  - destruct (collection (collections s) "animal"); [|discriminate].
    rewrite assign_ids_seed_animals. discriminate.
  - destruct (collection (collections s) "story"); [|discriminate].
    rewrite assign_ids_seed_stories. discriminate.
  - intros Hne. destruct (collection (collections s) "animal"); [contradiction | reflexivity].
  - intros Hne. destruct (collection (collections s) "story"); [contradiction | reflexivity].
  - intros ->. split; [apply strip_assigned_ids; exact Hno_a | apply assigned_ids_present].
  - intros ->. split; [apply strip_assigned_ids; exact Hno_s | apply assigned_ids_present].
  - exact Hother.
Qed.

(** X24.  Seeding is idempotent on a store that does not fail: a second
    run of [seed_data] changes nothing. *)
Theorem seed_data_idempotent (s : mongo) :
  ∃ s', @seed_data mongo pure_driver (Some s) = Some s'
        ∧ @seed_data mongo pure_driver (Some s') = Some s'.
Proof.
  exists (after_stories (after_animals s)). split; [apply seed_data_pure|].
  destruct (seeded_collections s) as (Ha & Hs & _).
  assert (Hne_a : collection (collections (after_stories (after_animals s))) "animal" ≠ []).
  { rewrite Ha. destruct (collection (collections s) "animal"); [|discriminate].
    rewrite assign_ids_seed_animals. discriminate. }
  assert (Hne_s : collection (collections (after_stories (after_animals s))) "story" ≠ []).
  { rewrite Hs. destruct (collection (collections s) "story"); [|discriminate].
    rewrite assign_ids_seed_stories. discriminate. }
  destruct (collection (collections (after_stories (after_animals s))) "animal")
    as [|d1 l1] eqn:Ha'; [contradiction|].
  destruct (collection (collections (after_stories (after_animals s))) "story")
    as [|d2 l2] eqn:Hs'; [contradiction|].
  apply (@seed_data_skips _ pure_driver _ (length l1) (length l2)).
  - change (Counted (length (collection
              (collections (after_stories (after_animals s))) "animal"))
            = Counted (Datatypes.S (length l1))).
    rewrite Ha'. reflexivity.
  - change (Counted (length (collection
              (collections (after_stories (after_animals s))) "story"))
            = Counted (Datatypes.S (length l2))).
    rewrite Hs'. reflexivity.
Qed.

(** ** Seeding, then reading *)

Lemma to_public_in_store (oid : string) (d : document) :
  d !! "_id" = None →
  d !! "id" = None →
  to_public (Some (in_store oid d)) = Some (<["id" := VStr oid]> d).
Proof.
  intros Hid Hid'. unfold to_public, in_store.
  destruct (decide (<["_id" := VOid oid]> d = ∅)) as [Hempty | _];
    [exfalso; revert Hempty; apply insert_non_empty|].
  rewrite lookup_insert_eq. simpl. apply (f_equal Some).
  rewrite delete_insert_ne by done. rewrite delete_insert_id by exact Hid. reflexivity.
Qed.

Section SeedThenRead.
Context `{!RegexEngine}.

Lemma featured_clause_matches (d : document) :
  matches {["featured" := CField (CEq (VBool true))]} d
  = store_eq (d !! "featured") (VBool true).
Proof.
  rewrite <- insert_empty. rewrite matches_insert by apply lookup_empty.
  rewrite matches_empty, andb_true_r. reflexivity.
Qed.

(** X25.  Once [seed_data] has run on a store, with a driver that does not
    fail, whose collection [animal] was empty, the featured listing is Luna
    and Milo, in this order, each with the identity it was given under [id]
    and without [_id]; and the unfiltered listing returns three records. *)
Theorem seeded_store_listing (s : mongo) :
  collection (collections s) "animal" = [] →
  ∃ s', @seed_data mongo pure_driver (Some s) = Some s'
        ∧ featured_animals (Some (collections s'))
          = [ Some (<["id" := VStr (oid_text (issued s))]> seed_luna);
              Some (<["id" := VStr (oid_text (N.succ (issued s)))]> seed_milo) ]
        ∧ ∃ rows,
            list_animals (Some (collections s')) None None None None None None 24
            = Returned rows
            ∧ length rows = 3%nat.
Proof.
  intros Hempty. exists (after_stories (after_animals s)).
  split; [apply seed_data_pure|].
  destruct (seeded_collections s) as (Ha & _ & _).
  rewrite Hempty, assign_ids_seed_animals in Ha. split.
  - unfold featured_animals. rewrite Ha. unfold find. cbn [List.filter].
    rewrite !featured_clause_matches. unfold in_store.
    rewrite !lookup_insert_ne by done.
    assert (Hl : seed_luna !! "featured" = Some (VBool true)) by (vm_compute; reflexivity).
    assert (Hm : seed_milo !! "featured" = Some (VBool true)) by (vm_compute; reflexivity).
    assert (Hp : seed_poppy !! "featured" = Some (VBool false)) by (vm_compute; reflexivity).
    rewrite Hl, Hm, Hp. cbn [store_eq]. 
    rewrite !bool_decide_eq_true_2 by reflexivity.
    rewrite bool_decide_eq_false_2 by discriminate.
    unfold cursor_limit. cbn [Z.eqb Z.abs_nat Z.abs Z.to_nat].
    fold (in_store (oid_text (issued s)) seed_luna).
    fold (in_store (oid_text (N.succ (issued s))) seed_milo).
    rewrite take_ge by (simpl; lia). cbn [map].
    rewrite !to_public_in_store by (vm_compute; reflexivity). reflexivity.
  - eexists. split; [apply list_animals_unfiltered|].
    rewrite Ha, length_map. reflexivity.
Qed.

End SeedThenRead.

Lemma seeded_store_listing_witness :
  ∃ s', @seed_data mongo pure_driver (Some (Mongo ∅ 0)) = Some s'
        ∧ @featured_animals fragment_engine (Some (collections s'))
          = [ Some (<["id" := VStr (oid_text 0)]> seed_luna);
              Some (<["id" := VStr (oid_text (N.succ 0))]> seed_milo) ]
        ∧ ∃ rows,
            @list_animals fragment_engine (Some (collections s'))
              None None None None None None 24
            = Returned rows
            ∧ length rows = 3%nat.
Proof.
  apply (@seeded_store_listing fragment_engine (Mongo ∅ 0)). reflexivity.
Defined.
